(** * ATS flow kernel: the Richards BDF callbacks and the constant EOS

    A shallow embedding of
    - [EOSConstant] (eos_constant.hh and its .cc companion), and
    - [Richards::fun], [Richards::update_precon] and [Richards::enorm]
      (the time-integrator callbacks of the Richards process kernel).

    C++ [double] is IEEE 754 binary64 with round-to-nearest-even, which is
    exactly Rocq's primitive [float]: every arithmetic operation, comparison
    and literal below is the one the compiled code performs, NaN and
    infinities included. *)

From Stdlib Require Import ZArith Lia Floats Reals Lra.
From stdpp Require Import gmap strings list.

Set Warnings "-inexact-float".

Open Scope float_scope.

(** ** Numbers *)

Abbreviation double := float.

(** [std::max<double>(a, b)]: [(a < b) ? b : a]. *)
Definition std_max (a b : double) : double := if a <? b then b else a.

(** ** Failure

    The callbacks return [void] or a [double]; what can go wrong is a failed
    [ASSERT], a field that the state does not hold, and an index past the end
    of a vector (undefined behaviour in the source, an error here). *)

Inductive Error : Set :=
| AssertionFailed
| NoSuchField (name : string)
| OutOfRange.

Inductive Result (A : Type) : Type :=
| Ok (a : A)
| Fail (e : Error).
Arguments Ok {A} a.
Arguments Fail {A} e.

#[global] Instance Result_ret : MRet Result := @Ok.
#[global] Instance Result_bind : MBind Result := λ A B f m,
  match m with
  | Ok a => f a
  | Fail e => Fail e
  end.

(** Modelled from the spec: the [ASSERT] macro (dbc.hh is not among the
    sources); the spec has a violated assertion fatal, never recoverable. *)
Definition ASSERT (b : bool) : Result unit :=
  if b then Ok tt else Fail AssertionFailed.

Definition from_option {A} (e : Error) (o : option A) : Result A :=
  match o with
  | Some a => Ok a
  | None => Fail e
  end.

(** ** Vectors and state snapshots *)

(** A [CompositeVector] with its two components, ["cell"] and ["face"]. *)
Record CompositeVector : Set := {
  cell : list double;
  face : list double
}.

(** [v("cell", c)] *)
Definition at_cell (v : CompositeVector) (c : nat) : Result double :=
  from_option OutOfRange (cell v !! c).

(** [v->PutScalar(x)] *)
Definition PutScalar (x : double) (v : CompositeVector) : CompositeVector :=
  {| cell := (λ _, x) <$> cell v; face := (λ _, x) <$> face v |}.

(** A [TreeVector] leaf: [data()] is its [CompositeVector]. *)
Record TreeVector : Set := { data : CompositeVector }.

(** A [State]: its time, the fields and the constant vectors it holds, by
    name. *)
Record State : Type := {
  time : double;
  fields : gmap string CompositeVector;
  constant_vectors : gmap string (list double)
}.

(** [S->GetFieldData(name)] *)
Definition GetFieldData (name : string) (S : State) : Result CompositeVector :=
  from_option (NoSuchField name) (fields S !! name).

(** [S->GetConstantVectorData(name)] *)
Definition GetConstantVectorData (name : string) (S : State) : Result (list double) :=
  from_option (NoSuchField name) (constant_vectors S !! name).

Definition set_fields (fs : gmap string CompositeVector) (S : State) : State :=
  {| time := time S; fields := fs; constant_vectors := constant_vectors S |}.

(** Modelled from the spec: [solution_to_state] of the kernel's base class
    (not among the sources), which propagates the iterate into the state
    snapshot: the state's field of the primary variable becomes the data of
    the solution vector. *)
Definition solution_to_state (key : string) (u : TreeVector) (S : State) : State :=
  set_fields (<[key := data u]> (fields S)) S.

(** ** The constant equation of state *)

Module EOSConstant.

Record t : Set := { M_ : double; rho_ : double }.

(** [InitializeFromPlist_]: the parameter list as a map of its [double]
    entries; the defaults are those of water. *)
Definition InitializeFromPlist_ (eos_plist : gmap string double) : t :=
  let M :=
    match eos_plist !! "Molar mass [kg/mol]" with
    | Some m => m
    | None => default 18.0153 (eos_plist !! "Molar mass [g/mol]") * 1e-3
    end in
  let rho :=
    match eos_plist !! "Density [mol/m^3]" with
    | Some r => r * M
    | None => default 1000.0 (eos_plist !! "Density [kg/m^3]")
    end in
  {| M_ := M; rho_ := rho |}.

Definition Density (self : t) (T p : double) : double := rho_ self / M_ self.
Definition DDensityDT (self : t) (T p : double) : double := 0.0.
Definition DDensityDp (self : t) (T p : double) : double := 0.0.

Definition molar_mass (self : t) : double := M_ self.
Definition is_molar_basis (self : t) : bool := true.

End EOSConstant.

(** ** Counted loops

    [for (int c = 0; c != n; ++c) body], in the [Result] monad: the loop
    stops at the first failing iteration. *)
Definition for_loop {A} (n : nat) (body : A → nat → Result A) (a : A) : Result A :=
  foldl (λ acc c, acc ≫= (λ x, body x c)) (Ok a) (seq 0 n).

(** ** The Richards process kernel *)

(** What the callbacks use without looking inside: the boundary functions,
    the boundary markers and values, the parts of an MFD operator other than
    its cell diagonal and cell right-hand side, and the members of the kernel
    that the three callbacks never name. *)
Class ExternalTypes : Type := {
  BCFunction : Type;
  BCMarkers : Type;
  BCValues : Type;
  OperatorBlocks : Type;
  OtherMembers : Type
}.

Section Kernel.
Context `{ExternalTypes}.

(** The MFD operator ([preconditioner_]): [Acc_cells()] and [Fc_cells()]
    hand out references to these two vectors. *)
Record MatrixMFD : Type := {
  Acc_cells : list double;
  Fc_cells : list double;
  blocks : OperatorBlocks
}.

Record Richards : Type := {
  name_ : string;
  key_ : string;
  S_inter_ : State;
  S_next_ : State;
  niter_ : Z;  (* an [int] counting calls of [fun] *)
  atol_ : double;
  rtol_ : double;
  atol0_ : double;
  rtol0_ : double;
  continuation_to_ss_ : bool;
  bc_pressure_ : BCFunction;
  bc_flux_ : BCFunction;
  bc_markers_ : BCMarkers;
  bc_values_ : BCValues;
  preconditioner_ : MatrixMFD;
  assemble_preconditioner_ : bool;
  others_ : OtherMembers
}.

Definition with_S_next (S : State) (pk : Richards) : Richards :=
  {| name_ := name_ pk; key_ := key_ pk; S_inter_ := S_inter_ pk;
     S_next_ := S; niter_ := niter_ pk;
     atol_ := atol_ pk; rtol_ := rtol_ pk;
     atol0_ := atol0_ pk; rtol0_ := rtol0_ pk;
     continuation_to_ss_ := continuation_to_ss_ pk;
     bc_pressure_ := bc_pressure_ pk; bc_flux_ := bc_flux_ pk;
     bc_markers_ := bc_markers_ pk; bc_values_ := bc_values_ pk;
     preconditioner_ := preconditioner_ pk;
     assemble_preconditioner_ := assemble_preconditioner_ pk;
     others_ := others_ pk |}.

Definition with_niter (n : Z) (pk : Richards) : Richards :=
  {| name_ := name_ pk; key_ := key_ pk; S_inter_ := S_inter_ pk;
     S_next_ := S_next_ pk; niter_ := n;
     atol_ := atol_ pk; rtol_ := rtol_ pk;
     atol0_ := atol0_ pk; rtol0_ := rtol0_ pk;
     continuation_to_ss_ := continuation_to_ss_ pk;
     bc_pressure_ := bc_pressure_ pk; bc_flux_ := bc_flux_ pk;
     bc_markers_ := bc_markers_ pk; bc_values_ := bc_values_ pk;
     preconditioner_ := preconditioner_ pk;
     assemble_preconditioner_ := assemble_preconditioner_ pk;
     others_ := others_ pk |}.

Definition with_tolerances (a r : double) (pk : Richards) : Richards :=
  {| name_ := name_ pk; key_ := key_ pk; S_inter_ := S_inter_ pk;
     S_next_ := S_next_ pk; niter_ := niter_ pk;
     atol_ := a; rtol_ := r;
     atol0_ := atol0_ pk; rtol0_ := rtol0_ pk;
     continuation_to_ss_ := continuation_to_ss_ pk;
     bc_pressure_ := bc_pressure_ pk; bc_flux_ := bc_flux_ pk;
     bc_markers_ := bc_markers_ pk; bc_values_ := bc_values_ pk;
     preconditioner_ := preconditioner_ pk;
     assemble_preconditioner_ := assemble_preconditioner_ pk;
     others_ := others_ pk |}.

Definition with_bc_functions (bp bf : BCFunction) (pk : Richards) : Richards :=
  {| name_ := name_ pk; key_ := key_ pk; S_inter_ := S_inter_ pk;
     S_next_ := S_next_ pk; niter_ := niter_ pk;
     atol_ := atol_ pk; rtol_ := rtol_ pk;
     atol0_ := atol0_ pk; rtol0_ := rtol0_ pk;
     continuation_to_ss_ := continuation_to_ss_ pk;
     bc_pressure_ := bp; bc_flux_ := bf;
     bc_markers_ := bc_markers_ pk; bc_values_ := bc_values_ pk;
     preconditioner_ := preconditioner_ pk;
     assemble_preconditioner_ := assemble_preconditioner_ pk;
     others_ := others_ pk |}.

Definition with_preconditioner (P : MatrixMFD) (pk : Richards) : Richards :=
  {| name_ := name_ pk; key_ := key_ pk; S_inter_ := S_inter_ pk;
     S_next_ := S_next_ pk; niter_ := niter_ pk;
     atol_ := atol_ pk; rtol_ := rtol_ pk;
     atol0_ := atol0_ pk; rtol0_ := rtol0_ pk;
     continuation_to_ss_ := continuation_to_ss_ pk;
     bc_pressure_ := bc_pressure_ pk; bc_flux_ := bc_flux_ pk;
     bc_markers_ := bc_markers_ pk; bc_values_ := bc_values_ pk;
     preconditioner_ := P;
     assemble_preconditioner_ := assemble_preconditioner_ pk;
     others_ := others_ pk |}.

Definition with_cells (Acc Fc : list double) (P : MatrixMFD) : MatrixMFD :=
  {| Acc_cells := Acc; Fc_cells := Fc; blocks := blocks P |}.

(** The collaborators, by what each call can reach.  A boundary function
    and the operator are objects of their own; a field evaluator rewrites
    fields of the state it is handed; the remaining ones are methods of the
    kernel defined in other translation units. *)
Class Collaborators : Type := {
  (* bc->Compute(t) *)
  Compute : double → BCFunction → BCFunction;
  (* UpdateBoundaryConditions_() *)
  UpdateBoundaryConditions_ : Richards → Richards;
  (* UpdatePermeabilityData_(S_next_) *)
  UpdatePermeabilityData_ : Richards → Richards;
  (* ApplyDiffusion_(S_next_, res) *)
  ApplyDiffusion_ : Richards → CompositeVector → Richards * CompositeVector;
  (* AddAccumulation_(res) *)
  AddAccumulation_ : Richards → CompositeVector → Richards * CompositeVector;
  (* AddGravityFluxes_(gvec, rel_perm, rho, matrix) *)
  AddGravityFluxes_ :
    Richards → list double → CompositeVector → CompositeVector →
    MatrixMFD → MatrixMFD;
  (* S->GetFieldEvaluator(key)->HasFieldChanged(S, request) *)
  HasFieldChanged :
    string → State → string → bool * gmap string CompositeVector;
  (* S->GetFieldEvaluator(key)->HasFieldDerivativeChanged(S, request, wrt) *)
  HasFieldDerivativeChanged :
    string → State → string → string → bool * gmap string CompositeVector;
  (* the operator's own methods *)
  CreateMFDstiffnessMatrices : CompositeVector → MatrixMFD → MatrixMFD;
  CreateMFDrhsVectors : MatrixMFD → MatrixMFD;
  ApplyBoundaryConditions : BCMarkers → BCValues → MatrixMFD → MatrixMFD;
  AssembleGlobalMatrices : MatrixMFD → MatrixMFD;
  ComputeSchurComplement : BCMarkers → BCValues → MatrixMFD → MatrixMFD;
  UpdatePreconditioner : MatrixMFD → MatrixMFD
}.

End Kernel.

Section Callbacks.
Context `{ExternalTypes} `{!Collaborators}.

(** *** Steps the callbacks share *)

(** [solution_to_state(u, S_next_)] *)
Definition propagate (u : TreeVector) (pk : Richards) : Richards :=
  with_S_next (solution_to_state (key_ pk) u (S_next_ pk)) pk.

(** [bc_pressure_->Compute(t); bc_flux_->Compute(t);
    UpdateBoundaryConditions_();] *)
Definition update_boundary_conditions (t : double) (pk : Richards) : Richards :=
  let pk := with_bc_functions (Compute t (bc_pressure_ pk)) (bc_flux_ pk) pk in
  let pk := with_bc_functions (bc_pressure_ pk) (Compute t (bc_flux_ pk)) pk in
  UpdateBoundaryConditions_ pk.

(** *** [Richards::fun]: the nonlinear functional g = g(t, u, udot)

    The verbose diagnostics ([DEBUG_FLAG]) only print, and
    [DEBUG_RES_FLAG] is 0. *)
Definition fun_ (t_old t_new : double) (u_old u_new g : TreeVector)
    (pk : Richards) : Result (TreeVector * Richards) :=
  let pk := with_niter (niter_ pk + 1) pk in
  _ ← ASSERT (time (S_inter_ pk) =? t_old);
  _ ← ASSERT (time (S_next_ pk) =? t_new);
  let h := t_new - t_old in
  (* pointer-copy the solution into state *)
  let pk := propagate u_new pk in
  (* update boundary conditions *)
  let pk := update_boundary_conditions t_new pk in
  (* zero out residual *)
  let res := PutScalar 0.0 (data g) in
  (* diffusion term, treated implicitly *)
  let '(pk, res) := ApplyDiffusion_ pk res in
  (* accumulation term *)
  let '(pk, res) := AddAccumulation_ pk res in
  Ok ({| data := res |}, pk).

(** *** [Richards::update_precon] *)

(** [CreateMFDstiffnessMatrices(rel_perm); CreateMFDrhsVectors();
    AddGravityFluxes_(gvec, rel_perm, rho, preconditioner_);] *)
Definition rebuild_operator (rel_perm rho : CompositeVector)
    (gvec : list double) (pk : Richards) : Richards :=
  let pk := with_preconditioner
              (CreateMFDstiffnessMatrices rel_perm (preconditioner_ pk)) pk in
  let pk := with_preconditioner (CreateMFDrhsVectors (preconditioner_ pk)) pk in
  with_preconditioner
    (AddGravityFluxes_ pk gvec rel_perm rho (preconditioner_ pk)) pk.

(** [S_next_->GetFieldEvaluator("water_content")
       ->HasFieldDerivativeChanged(S_next_, name_, key_)] *)
Definition request_accumulation_derivative (pk : Richards) : Richards :=
  with_S_next
    (set_fields
       (HasFieldDerivativeChanged "water_content" (S_next_ pk)
          (name_ pk) (key_ pk)).2
       (S_next_ pk)) pk.

(** Everything up to the cell-cell block: the state takes the iterate, the
    rel perm and the boundary conditions are updated, the operator gets its
    stiffness matrices, right-hand sides and gravity fluxes, and the
    accumulation derivative is requested and read. *)
Definition update_precon_assemble (t : double) (up : TreeVector)
    (pk : Richards) : Result (Richards * CompositeVector * CompositeVector) :=
  (* update state with the solution up *)
  _ ← ASSERT (time (S_next_ pk) =? t);
  let pk := propagate up pk in
  (* update the rel perm according to the scheme of choice *)
  let pk := UpdatePermeabilityData_ pk in
  (* update boundary conditions *)
  let pk := update_boundary_conditions (time (S_next_ pk)) pk in
  rel_perm ← GetFieldData "numerical_rel_perm" (S_next_ pk);
  rho ← GetFieldData "mass_density_liquid" (S_next_ pk);
  gvec ← GetConstantVectorData "gravity" (S_next_ pk);
  (* update the preconditioner with darcy and gravity fluxes *)
  let pk := rebuild_operator rel_perm rho gvec pk in
  (* update the accumulation derivatives *)
  let pk := request_accumulation_derivative pk in
  (* get the accumulation deriv *)
  dwc_dp ← GetFieldData ("dwater_content_d" +:+ key_ pk) (S_next_ pk);
  pres ← GetFieldData (key_ pk) (S_next_ pk);
  Ok (pk, dwc_dp, pres).

(** The body of the loop over cells:
    [Acc_cells[c] += dwc_dp("cell",c) / h;]
    [Fc_cells[c] += pres("cell",c) * dwc_dp("cell",c) / h;] *)
Definition accumulate_cell (h : double) (dwc_dp pres : CompositeVector)
    (AF : list double * list double) (c : nat)
    : Result (list double * list double) :=
  d ← at_cell dwc_dp c;
  a ← from_option OutOfRange (AF.1 !! c);
  let Acc := <[c := a + d / h]> AF.1 in
  p ← at_cell pres c;
  f ← from_option OutOfRange (AF.2 !! c);
  let Fc := <[c := f + p * d / h]> AF.2 in
  Ok (Acc, Fc).

(** The cell-cell block update, on the operator. *)
Definition update_cell_block (h : double) (dwc_dp pres : CompositeVector)
    (P : MatrixMFD) : Result MatrixMFD :=
  AF ← for_loop (length (cell dwc_dp)) (accumulate_cell h dwc_dp pres)
         (Acc_cells P, Fc_cells P);
  Ok (with_cells AF.1 AF.2 P).

(** Boundary conditions on the operator and, if the kernel assembles its
    preconditioner, the Schur complement. *)
Definition update_precon_finish (pk : Richards) : Richards :=
  let P := ApplyBoundaryConditions (bc_markers_ pk) (bc_values_ pk)
             (preconditioner_ pk) in
  let P :=
    if assemble_preconditioner_ pk then
      UpdatePreconditioner
        (ComputeSchurComplement (bc_markers_ pk) (bc_values_ pk)
           (AssembleGlobalMatrices P))
    else P in
  with_preconditioner P pk.

Definition update_precon (t : double) (up : TreeVector) (h : double)
    (pk : Richards) : Result Richards :=
  '(pk, dwc_dp, pres) ← update_precon_assemble t up pk;
  P ← update_cell_block h dwc_dp pres (preconditioner_ pk);
  Ok (update_precon_finish (with_preconditioner P pk)).

(** *** [Richards::enorm] *)

(** The tolerances, relaxed while continuing to steady state. *)
Definition update_tolerances (pk : Richards) : Richards :=
  if continuation_to_ss_ pk then
    let a := atol0_ pk + 1e5 * atol0_ pk / (1.0 + time (S_next_ pk)) in
    let pk := with_tolerances a (rtol_ pk) pk in
    let r := rtol0_ pk + 1e5 * rtol0_ pk / (1.0 + time (S_next_ pk)) in
    with_tolerances (atol_ pk) r pk
  else pk.

(** One cell's error: [abs(h*res("cell",c)) / (atol_+rtol_*abs(wc("cell",c)))].
    The unqualified [abs] is taken at [double] (the overload that the
    headers' [using namespace std] brings in). *)
Definition cell_error (atol rtol h : double) (r w : double) : double :=
  abs (h * r) / (atol + rtol * abs w).

Definition enorm_cell_step (atol rtol h : double) (res wc : CompositeVector)
    (enorm_cell : double) (c : nat) : Result double :=
  r ← at_cell res c;
  w ← at_cell wc c;
  let tmp := cell_error atol rtol h r w in
  Ok (std_max enorm_cell tmp).

(** [MPI_Allreduce(&buf, &enorm_val, 1, MPI_DOUBLE, MPI_MAX, MPI_COMM_WORLD)]:
    [peers] are the buffers of the other ranks; the list is empty on a
    single rank and in a build without [HAVE_MPI]. *)
Definition MPI_Allreduce_MAX (buf : double) (peers : list double) : double :=
  foldl std_max buf peers.

(** [S_next_->GetFieldEvaluator("water_content")->HasFieldChanged(S_next_, name_)] *)
Definition request_water_content (pk : Richards) : Richards :=
  with_S_next
    (set_fields (HasFieldChanged "water_content" (S_next_ pk) (name_ pk)).2
       (S_next_ pk)) pk.

(** [double h = S_next_->time() - S_inter_->time();] *)
Definition step_size (pk : Richards) : double :=
  time (S_next_ pk) - time (S_inter_ pk).

(** What one rank computes before the reduction.  The face loop is
    commented out in the source: [enorm_face] stays at its initial value. *)
Definition enorm_local (u du : TreeVector) (pk : Richards)
    : Result (double * Richards) :=
  (* update the tolerances if we are continuing from a poor IC *)
  let pk := update_tolerances pk in
  (* cell error given by tolerances on water content *)
  let pk := request_water_content pk in
  wc ← GetFieldData "water_content" (S_next_ pk);
  let res := data du in
  let h := step_size pk in
  let ncells := length (cell res) in
  enorm_cell ← for_loop ncells
                 (enorm_cell_step (atol_ pk) (rtol_ pk) h res wc) 0;
  let enorm_face := 0 in
  let enorm_val := std_max enorm_face enorm_cell in
  Ok (enorm_val, pk).

Definition enorm (u du : TreeVector) (peers : list double) (pk : Richards)
    : Result (double * Richards) :=
  '(enorm_val, pk) ← enorm_local u du pk;
  Ok (MPI_Allreduce_MAX enorm_val peers, pk).

(** What a test reads off a call: the norm, the tolerances the kernel is
    left with, the cell diagonal and cell right-hand side of its operator. *)
Definition norm_of (r : Result (double * Richards)) : option double :=
  match r with Ok (x, _) => Some x | Fail _ => None end.

Definition tolerances_after (r : Result (double * Richards))
    : option (double * double) :=
  match r with Ok (_, pk) => Some (atol_ pk, rtol_ pk) | Fail _ => None end.

Definition cells_after (r : Result Richards)
    : option (list double * list double) :=
  match r with
  | Ok pk => Some (Acc_cells (preconditioner_ pk), Fc_cells (preconditioner_ pk))
  | Fail _ => None
  end.

Definition residual_of (r : Result (TreeVector * Richards))
    : option CompositeVector :=
  match r with Ok (g, _) => Some (data g) | Fail _ => None end.

(** *** What the statements below speak of *)

(** The per-cell errors, cell by cell. *)
Definition cell_errors (atol rtol h : double) (res wc : CompositeVector)
    : list double :=
  zip_with (cell_error atol rtol h) (cell res) (cell wc).

(** The kernel as the cell loop of [enorm] finds it. *)
Definition enorm_kernel (pk : Richards) : Richards :=
  request_water_content (update_tolerances pk).

(** The kernel as [fun] has it when it zeroes the residual: the call is
    counted, the new state holds the iterate, the boundary conditions are
    those of [t_new]. *)
Definition fun_kernel (t_new : double) (u_new : TreeVector) (pk : Richards)
    : Richards :=
  update_boundary_conditions t_new
    (propagate u_new (with_niter (niter_ pk + 1) pk)).

(** The collaborators between the propagation of the iterate and the cell
    loop leave the primary variable's field, and its name, as they are. *)
Definition primary_variable_untouched : Prop :=
  (∀ pk, key_ (UpdatePermeabilityData_ pk) = key_ pk ∧
         fields (S_next_ (UpdatePermeabilityData_ pk)) !! key_ pk =
         fields (S_next_ pk) !! key_ pk) ∧
  (∀ pk, key_ (UpdateBoundaryConditions_ pk) = key_ pk ∧
         fields (S_next_ (UpdateBoundaryConditions_ pk)) !! key_ pk =
         fields (S_next_ pk) !! key_ pk) ∧
  (∀ S request wrt,
     (HasFieldDerivativeChanged "water_content" S request wrt).2 !! wrt =
     fields S !! wrt).

(** The kernel still names its primary variable as before, and the new
    state holds [v] for it. *)
Definition holds_primary (key : string) (v : CompositeVector) (pk : Richards)
    : Prop :=
  key_ pk = key ∧ fields (S_next_ pk) !! key = Some v.

(** [x] cannot raise a non-negative running maximum, or is at most [y]. *)
Definition dominated (x y : double) : Prop :=
  (0 <? x) = false ∨ (x <=? y) = true.

End Callbacks.

(** * Collaborators to run the callbacks with *)

(** Collaborators that do nothing: every external call leaves its arguments
    as they are (an operator that is never rebuilt, evaluators that find
    their fields up to date). *)
Module Idle.

#[export] Instance types : ExternalTypes :=
  {| BCFunction := unit; BCMarkers := unit; BCValues := unit;
     OperatorBlocks := unit; OtherMembers := unit |}.

#[export] Instance collaborators : Collaborators :=
  {| Compute _ b := b;
     UpdateBoundaryConditions_ pk := pk;
     UpdatePermeabilityData_ pk := pk;
     ApplyDiffusion_ pk res := (pk, res);
     AddAccumulation_ pk res := (pk, res);
     AddGravityFluxes_ _ _ _ _ P := P;
     HasFieldChanged _ S _ := (false, fields S);
     HasFieldDerivativeChanged _ S _ _ := (false, fields S);
     CreateMFDstiffnessMatrices _ P := P;
     CreateMFDrhsVectors P := P;
     ApplyBoundaryConditions _ _ P := P;
     AssembleGlobalMatrices P := P;
     ComputeSchurComplement _ _ P := P;
     UpdatePreconditioner P := P |}.

Definition vec (cells : list double) : CompositeVector :=
  {| cell := cells; face := [] |}.

(** A one-cell kernel: both snapshots hold the pressure, its water content
    and the derivative of the latter. *)
Definition snapshot (t p wc dwc : double) : State :=
  {| time := t;
     fields := <["pressure" := vec [p]]>
               (<["water_content" := vec [wc]]>
               (<["dwater_content_dpressure" := vec [dwc]]>
               (<["numerical_rel_perm" := vec [1]]>
               (<["mass_density_liquid" := vec [1000]]> ∅))));
     constant_vectors := <["gravity" := [0; 0; -9.80665]]> ∅ |}.

Definition kernel (t_old t_new wc atol0 rtol0 : double) (continuation : bool)
    : Richards :=
  {| name_ := "flow"; key_ := "pressure";
     S_inter_ := snapshot t_old 101325 wc 1;
     S_next_ := snapshot t_new 101325 wc 1;
     niter_ := 0;
     atol_ := atol0; rtol_ := rtol0; atol0_ := atol0; rtol0_ := rtol0;
     continuation_to_ss_ := continuation;
     bc_pressure_ := tt; bc_flux_ := tt; bc_markers_ := tt; bc_values_ := tt;
     preconditioner_ := {| Acc_cells := [0]; Fc_cells := [0]; blocks := tt |};
     assemble_preconditioner_ := true;
     others_ := tt |}.

End Idle.

(** Collaborators with something to show for each call: the diffusion and
    accumulation terms add to the residual they are handed, and the operator
    rebuilds its cell diagonal from the rel perm and clears its cell
    right-hand side, the way an MFD operator refills its local matrices. *)
Module Demo.
Import Idle.

Definition shift_cells (x : double) (v : CompositeVector) : CompositeVector :=
  {| cell := (λ y, y + x) <$> cell v; face := face v |}.

#[export] Instance collaborators : Collaborators :=
  {| Compute _ b := b;
     UpdateBoundaryConditions_ pk := pk;
     UpdatePermeabilityData_ pk := pk;
     ApplyDiffusion_ pk res := (pk, shift_cells 1 res);
     AddAccumulation_ pk res := (pk, shift_cells 0.5 res);
     AddGravityFluxes_ _ _ _ _ P := P;
     HasFieldChanged _ S _ := (false, fields S);
     HasFieldDerivativeChanged _ S _ _ := (true, fields S);
     CreateMFDstiffnessMatrices rel_perm P :=
       with_cells (cell rel_perm) (Fc_cells P) P;
     CreateMFDrhsVectors P :=
       with_cells (Acc_cells P) ((λ _, 0) <$> Fc_cells P) P;
     ApplyBoundaryConditions _ _ P := P;
     AssembleGlobalMatrices P := P;
     ComputeSchurComplement _ _ P := P;
     UpdatePreconditioner P := P |}.

End Demo.

(** Collaborators whose field evaluators have work to do: asked for a field,
    the evaluator recomputes it from the pressure of the state it is handed
    (one unit per 10132.5 units of pressure), whatever the state held under
    that name before. *)
Module Evaluating.
Import Idle.

Definition recompute (key : string) (S : State) : gmap string CompositeVector :=
  match fields S !! "pressure" with
  | Some p => <[key := vec ((λ x, x / 10132.5) <$> cell p)]> (fields S)
  | None => fields S
  end.

#[export] Instance collaborators : Collaborators :=
  {| Compute _ b := b;
     UpdateBoundaryConditions_ pk := pk;
     UpdatePermeabilityData_ pk := pk;
     ApplyDiffusion_ pk res := (pk, res);
     AddAccumulation_ pk res := (pk, res);
     AddGravityFluxes_ _ _ _ _ P := P;
     HasFieldChanged key S _ := (true, recompute key S);
     HasFieldDerivativeChanged _ S _ _ := (false, fields S);
     CreateMFDstiffnessMatrices _ P := P;
     CreateMFDrhsVectors P := P;
     ApplyBoundaryConditions _ _ P := P;
     AssembleGlobalMatrices P := P;
     ComputeSchurComplement _ _ P := P;
     UpdatePreconditioner P := P |}.

End Evaluating.

(** ** Scenarios of the spec, on one cell *)

Module Scenario.
Import Idle.

(** h = 1, atol = 1e-5, rtol = 1e-4, wc = 10.0, du = 1e-3. *)
Definition pk_norm : Richards := kernel 0 1 10.0 1e-5 1e-4 false.
Definition du_norm : TreeVector := {| data := {| cell := [1e-3]; face := [7; 8] |} |}.
Definition u_norm : TreeVector := {| data := vec [101325] |}.

(** Continuation to steady state, atol0 = 1e-5, t_new = 9. *)
Definition pk_continuation : Richards := kernel 8 9 10.0 1e-5 1e-4 true.

(** The iterate of the preconditioner scenarios. *)
Definition up_demo : TreeVector := {| data := vec [101325] |}.

(** The scenario of the error norm between snapshots at times 2 and 3
    (h = 1), whose stored water content, 5.0, is out of date. *)
Definition pk_stale : Richards := kernel 2 3 5.0 1e-5 1e-4 false.

(** The same snapshots with a negative absolute tolerance. *)
Definition pk_negative : Richards := kernel 2 3 10.0 (-1) 0 false.

(** Two snapshots at the same time, 5. *)
Definition pk_still : Richards := kernel 5 5 10.0 1e-5 1e-4 false.

(** The defaults of the parameter list: water. *)
Definition water : EOSConstant.t := EOSConstant.InitializeFromPlist_ ∅.

End Scenario.

(** * Binary64: what the statements speak of *)

Module F64.

(** ** The order of [SFcompare]

    On numbers the comparison is the lexicographic order of a triple of
    integers: sign class, then exponent, then mantissa. *)
Definition key (x : spec_float) : Z * Z * Z :=
  match x with
  | S754_nan => (0, 0, 0)%Z
  | S754_zero _ => (0, 0, 0)%Z
  | S754_infinity false => (2, 0, 0)%Z
  | S754_infinity true => (-2, 0, 0)%Z
  | S754_finite false m e => (1, e, Z.pos m)%Z
  | S754_finite true m e => (-1, - e, Z.neg m)%Z
  end.

Definition lex3 (a b : Z * Z * Z) : comparison :=
  match (a.1.1 ?= b.1.1)%Z with
  | Eq => match (a.1.2 ?= b.1.2)%Z with
          | Eq => (a.2 ?= b.2)%Z
          | c => c
          end
  | c => c
  end.

Definition is_number (x : spec_float) : bool :=
  match x with S754_nan => false | _ => true end.

(** Zero of either sign, or NaN: what a product with a zero factor and a
    quotient with such a numerator can be. *)
Definition zero_or_nan (x : spec_float) : bool :=
  match x with S754_zero _ | S754_nan => true | _ => false end.

Definition znan (x : float) : Prop := zero_or_nan (Prim2SF x) = true.

Definition finite (x : float) : Prop := (abs x <? infinity) = true.

End F64.

(** * Rounding: what the statements speak of *)

Module Rounding.
Local Open Scope R_scope.

Definition pow2 (e : Z) : R := powerRZ 2 e.
Definition F2R (m e : Z) : R := IZR m * pow2 e.

(** [located v m e l]: the real [v] lies in the slot [m*2^e, (m+1)*2^e) and
    [l] says where: on its left end, in its lower half, in the middle, in its
    upper half. *)
Inductive located (v : R) (m e : Z) : location -> Prop :=
| located_exact : v = F2R m e -> located v m e loc_Exact
| located_lt : F2R m e < v -> 2 * v < F2R (2 * m + 1) e ->
               located v m e (loc_Inexact Lt)
| located_eq : 2 * v = F2R (2 * m + 1) e -> located v m e (loc_Inexact Eq)
| located_gt : F2R (2 * m + 1) e < 2 * v -> v < F2R (m + 1) e ->
               located v m e (loc_Inexact Gt).

Definition locrec (v : R) (e : Z) (mrs : shr_record) : Prop :=
  located v (shr_m mrs) e (loc_of_shr_record mrs).

(** [described v n T l]: [T] is the exponent at which binary64 represents
    numbers of the size of [v], and [n], [l] locate [v] there. *)
Definition described (v : R) (n T : Z) (l : location) : Prop :=
  located v n T l /\ (-1074 <= T)%Z /\ v < pow2 (T + 53) /\
  ((-1074 < T)%Z -> pow2 (T + 52) <= v).

(** The last steps of [binary_round_aux]: renormalise a mantissa that the
    rounding has carried to 2^53, then zero, finite, or overflow. *)
Definition finish (sx : bool) (N T : Z) : spec_float :=
  let NT := if (N =? 2 ^ 53)%Z then (2 ^ 52, T + 1)%Z else (N, T) in
  match NT.1 with
  | Z0 => S754_zero sx
  | Zpos p => if (NT.2 <=? 971)%Z then S754_finite sx p NT.2
              else S754_infinity sx
  | Zneg _ => S754_nan
  end.

(** What rounding leaves: a mantissa of at most 53 bits (2^53 before the
    renormalisation), with its leading bit set above the smallest exponent. *)
Definition rounded (N T : Z) : Prop :=
  (0 <= N <= 2 ^ 53)%Z /\ (-1074 <= T)%Z /\ ((-1074 < T)%Z -> (2 ^ 52 <= N)%Z).

(** [x] does not take part in a maximum over non-negative numbers, or is at
    most [y]. *)
Definition below (x y : spec_float) : Prop :=
  x = S754_nan \/ x = S754_zero false \/ SFleb x y = true.

End Rounding.

(** * Facts about binary64 *)

Module F64Facts.
Import F64.

(** ** The order of [SFcompare] *)

Lemma SFcompare_key x y :
  SFcompare x y =
  if is_number x && is_number y then Some (lex3 (key x) (key y)) else None.
Proof.
  destruct x as [[]|[]| |[] mx ex], y as [[]|[]| |[] my ey]; try reflexivity;
    unfold lex3; cbn [SFcompare is_number andb key fst snd]; f_equal.
  change (-1 ?= -1)%Z with Eq; cbv iota.
  rewrite Z.compare_opp, (Z.compare_antisym ex ey).
  destruct (ex ?= ey)%Z; simpl; try reflexivity.
Qed.

Lemma lex3_spec a b :
  match lex3 a b with
  | Eq => a = b
  | Lt => (a.1.1 < b.1.1 ∨ a.1.1 = b.1.1 ∧
            (a.1.2 < b.1.2 ∨ a.1.2 = b.1.2 ∧ a.2 < b.2))%Z
  | Gt => (b.1.1 < a.1.1 ∨ a.1.1 = b.1.1 ∧
            (b.1.2 < a.1.2 ∨ a.1.2 = b.1.2 ∧ b.2 < a.2))%Z
  end.
Proof.
  destruct a as [[a1 a2] a3], b as [[b1 b2] b3]. unfold lex3. simpl.
  destruct (Z.compare_spec a1 b1); [|lia..].
  destruct (Z.compare_spec a2 b2); [|lia..].
  destruct (Z.compare_spec a3 b3); [|lia..].
  congruence.
Qed.

Lemma ltb_key x y :
  (x <? y) =
  is_number (Prim2SF x) && is_number (Prim2SF y) &&
  match lex3 (key (Prim2SF x)) (key (Prim2SF y)) with
  | Lt => true
  | _ => false
  end.
Proof.
  rewrite FloatAxioms.ltb_spec. unfold SFltb. rewrite SFcompare_key.
  destruct (is_number _ && is_number _); reflexivity.
Qed.

Lemma leb_key x y :
  (x <=? y) =
  is_number (Prim2SF x) && is_number (Prim2SF y) &&
  match lex3 (key (Prim2SF x)) (key (Prim2SF y)) with
  | Gt => false
  | _ => true
  end.
Proof.
  rewrite FloatAxioms.leb_spec. unfold SFleb. rewrite SFcompare_key.
  destruct (is_number _ && is_number _); [|reflexivity].
  destruct (lex3 _ _); reflexivity.
Qed.

Lemma eqb_key x y :
  (x =? y) =
  is_number (Prim2SF x) && is_number (Prim2SF y) &&
  match lex3 (key (Prim2SF x)) (key (Prim2SF y)) with
  | Eq => true
  | _ => false
  end.
Proof.
  rewrite FloatAxioms.eqb_spec. unfold SFeqb. rewrite SFcompare_key.
  destruct (is_number _ && is_number _); reflexivity.
Qed.

(** Order goals over floats: to keys, then to linear integer arithmetic. *)
Ltac by_keys :=
  rewrite ?leb_key, ?ltb_key, ?eqb_key;
  repeat match goal with
    | |- context [is_number ?x] => destruct (is_number x)
    end;
  cbn [andb]; try discriminate; try reflexivity;
  repeat match goal with
    | |- context [key ?x] =>
        let a := fresh "a" in let b := fresh "b" in let c := fresh "c" in
        destruct (key x) as [[a b] c]
    end;
  repeat match goal with
    | |- context [lex3 ?a ?b] =>
        let H := fresh in pose proof (lex3_spec a b) as H; destruct (lex3 a b)
    end;
  cbn [fst snd] in *; try discriminate; try reflexivity; intros;
  exfalso;
  repeat match goal with
    | H : (_, _) = (_, _) |- _ => inversion H; clear H; subst
    end;
  lia.

Lemma leb_ltb_trans x y z : (x <=? y) = true → (y <? z) = true → (x <? z) = true.
Proof. by_keys. Qed.

Lemma ltb_leb_trans x y z : (x <? y) = true → (y <=? z) = true → (x <? z) = true.
Proof. by_keys. Qed.

Lemma leb_trans x y z : (x <=? y) = true → (y <=? z) = true → (x <=? z) = true.
Proof. by_keys. Qed.

Lemma ltb_leb x y : (x <? y) = true → (x <=? y) = true.
Proof. by_keys. Qed.

Lemma leb_refl x : (x <=? x) = (x =? x).
Proof. by_keys. Qed.

Lemma leb_number_l x y : (x <=? y) = true → (x =? x) = true.
Proof. by_keys. Qed.

Lemma leb_number_r x y : (x <=? y) = true → (y =? y) = true.
Proof. by_keys. Qed.

Lemma ltb_false_leb x y :
  (x =? x) = true → (y =? y) = true → (x <? y) = false → (y <=? x) = true.
Proof. by_keys. Qed.

Lemma leb_not_ltb x y : (x <=? y) = true → (y <? x) = false.
Proof. by_keys. Qed.

(** ** Zeros and NaN through the operations of the error norm *)

Lemma Prim2SF_zero : Prim2SF 0 = S754_zero false.
Proof. reflexivity. Qed.

Lemma znan_zero : znan 0.
Proof. reflexivity. Qed.

Lemma eqb_zero x : (x =? 0) = true ↔ ∃ s, Prim2SF x = S754_zero s.
Proof.
  rewrite FloatAxioms.eqb_spec, Prim2SF_zero.
  destruct (Prim2SF x) as [s|[]| |[] m e]; cbn; split; try discriminate;
    try (intros [? ?]; discriminate); eauto.
Qed.

Lemma znan_spec x : znan x ↔ (x =? 0) = true ∨ (x =? x) = false.
Proof.
  unfold znan. rewrite !FloatAxioms.eqb_spec, Prim2SF_zero.
  destruct (Prim2SF x) as [s|[]| |[] m e]; cbn;
    rewrite ?Z.compare_refl, ?Pos.compare_cont_refl; cbn; intuition discriminate.
Qed.

Lemma znan_mul_r h r : znan r → znan (h * r).
Proof.
  unfold znan. rewrite mul_spec.
  destruct (Prim2SF h) as [?|?| |? ? ?], (Prim2SF r) as [?|?| |? ? ?];
    cbn; congruence.
Qed.

Lemma znan_mul_l h r : znan h → znan (h * r).
Proof.
  unfold znan. rewrite mul_spec.
  destruct (Prim2SF h) as [?|?| |? ? ?], (Prim2SF r) as [?|?| |? ? ?];
    cbn; congruence.
Qed.

Lemma znan_abs x : znan x → znan (abs x).
Proof.
  unfold znan. rewrite abs_spec. destruct (Prim2SF x); cbn; congruence.
Qed.

Lemma znan_div n d : znan n → znan (n / d).
Proof.
  unfold znan. rewrite div_spec.
  destruct (Prim2SF n) as [?|?| |? ? ?], (Prim2SF d) as [?|?| |? ? ?];
    cbn; congruence.
Qed.

(** A zero or a NaN never exceeds a non-negative number. *)
Lemma znan_not_above t a : znan t → (0 <=? a) = true → (a <? t) = false.
Proof.
  unfold znan. rewrite leb_key, ltb_key, Prim2SF_zero.
  destruct (Prim2SF t) as [?|?| |? ? ?]; cbn [zero_or_nan]; try discriminate;
    intros _; cbn [is_number key andb]; [|now rewrite andb_false_r].
  destruct (is_number (Prim2SF a)); cbn [andb]; [|done].
  destruct (key (Prim2SF a)) as [[a1 a2] a3].
  pose proof (lex3_spec (0, 0, 0)%Z (a1, a2, a3)) as H1.
  pose proof (lex3_spec (a1, a2, a3) (0, 0, 0)%Z) as H2.
  destruct (lex3 (0, 0, 0)%Z (a1, a2, a3)), (lex3 (a1, a2, a3) (0, 0, 0)%Z);
    cbn [fst snd] in *; try done; intros _; exfalso;
    repeat match goal with
      | H : (_, _) = (_, _) |- _ => inversion H; clear H; subst
      end; lia.
Qed.

(** The difference of two equal times is a zero, or NaN when both are the
    same infinity. *)
Lemma znan_sub_eq x y : (x =? y) = true → znan (x - y).
Proof.
  unfold znan. rewrite eqb_key, sub_spec.
  destruct (Prim2SF x) as [[]|[]| |[] mx ex], (Prim2SF y) as [[]|[]| |[] my ey];
    cbn [is_number andb key]; try discriminate; try reflexivity;
    match goal with
    | |- context [lex3 ?a ?b] =>
        pose proof (lex3_spec a b) as E; destruct (lex3 a b); try discriminate
    end;
    inversion E; subst; intros _;
    try replace ex with ey by lia;
    unfold SF64sub, SFsub; rewrite Z.sub_diag; reflexivity.
Qed.

(** ** Finite numbers *)

Lemma finite_spec x :
  finite x ↔ ∃ s, Prim2SF x = S754_zero s ∨ ∃ m e, Prim2SF x = S754_finite s m e.
Proof.
  unfold finite. rewrite FloatAxioms.ltb_spec, abs_spec.
  change (Prim2SF infinity) with (S754_infinity false).
  destruct (Prim2SF x) as [s|s| |s m e]; cbn; split;
    try discriminate; try (intros [? [?|(? & ? & ?)]]; discriminate); eauto.
Qed.

(** A finite number minus itself is +0. *)
Lemma sub_diag x : finite x → Prim2SF (x - x) = S754_zero false.
Proof.
  intros Hx. apply finite_spec in Hx as [s [E|(m & e & E)]];
    rewrite sub_spec, E; [now destruct s|].
  unfold SF64sub, SFsub. now rewrite Z.sub_diag.
Qed.

(** A zero divided by a nonzero number is a zero. *)
Lemma div_zero_l n d :
  (n =? 0) = true → (d =? d) = true → (d =? 0) = false → (n / d =? 0) = true.
Proof.
  intros Hn Hd Hd0. apply eqb_zero in Hn as [s Hn].
  assert (Hz : ∀ s', Prim2SF d ≠ S754_zero s').
  { intros s' E. assert ((d =? 0) = true) by (apply eqb_zero; eauto). congruence. }
  rewrite FloatAxioms.eqb_spec in Hd.
  apply eqb_zero. rewrite div_spec, Hn.
  destruct (Prim2SF d) as [s'|s'| |s' m e]; cbn; try discriminate; eauto.
  now destruct (Hz s').
Qed.

End F64Facts.

(** * Rounding is monotone

    The products and quotients of the error norm are rounded to nearest,
    ties to even.  This part relates [binary_round_aux], the rounding of
    the specification of binary64, to the real number it rounds, and
    derives that [SFmul] and [SFdiv] are monotone on non-negative
    arguments. *)

Module RoundingFacts.
Import Rounding.
Local Open Scope R_scope.

Lemma pow2_pos e : 0 < pow2 e.
Proof. apply powerRZ_lt. lra. Qed.

Lemma pow2_add a b : pow2 (a + b) = pow2 a * pow2 b.
Proof. apply powerRZ_add. lra. Qed.

Lemma pow2_succ e : pow2 (e + 1) = 2 * pow2 e.
Proof. rewrite pow2_add. unfold pow2 at 2. rewrite powerRZ_1. lra. Qed.

Lemma pow2_0 : pow2 0 = 1.
Proof. reflexivity. Qed.

Lemma pow2_ge_1 n : (0 <= n)%Z -> 1 <= pow2 n.
Proof.
  intros Hn. pattern n. apply natlike_ind; [rewrite pow2_0; lra| |done].
  intros x Hx IH. unfold Z.succ. rewrite pow2_succ. lra.
Qed.

Lemma pow2_le a b : (a <= b)%Z -> pow2 a <= pow2 b.
Proof.
  intros Hab. replace b with (a + (b - a))%Z by lia. rewrite pow2_add.
  pose proof (pow2_ge_1 (b - a) ltac:(lia)). pose proof (pow2_pos a). nra.
Qed.

Lemma pow2_lt a b : (a < b)%Z -> pow2 a < pow2 b.
Proof.
  intros Hab. replace b with (a + 1 + (b - a - 1))%Z by lia.
  rewrite pow2_add, pow2_succ.
  assert (1 <= pow2 (b - a - 1)) by (apply pow2_ge_1; lia).
  pose proof (pow2_pos a). nra.
Qed.

Lemma pow2_IZR n : (0 <= n)%Z -> pow2 n = IZR (2 ^ n).
Proof.
  intros Hn. pattern n. apply natlike_ind; [reflexivity| |done].
  intros x Hx IH. rewrite Z.pow_succ_r by done.
  rewrite mult_IZR, <- IH. unfold Z.succ. rewrite pow2_succ. lra.
Qed.

Lemma F2R_succ m e : F2R m (e + 1) = F2R (2 * m) e.
Proof. unfold F2R. rewrite pow2_succ, mult_IZR. lra. Qed.

Lemma F2R_plus m n e : F2R (m + n) e = F2R m e + F2R n e.
Proof. unfold F2R. rewrite plus_IZR. lra. Qed.

Lemma F2R_1 e : F2R 1 e = pow2 e.
Proof. unfold F2R. lra. Qed.

Lemma F2R_le m n e : (m <= n)%Z -> F2R m e <= F2R n e.
Proof.
  intros Hmn. unfold F2R. apply IZR_le in Hmn. pose proof (pow2_pos e). nra.
Qed.

Lemma F2R_lt m n e : (m < n)%Z -> F2R m e < F2R n e.
Proof.
  intros Hmn. unfold F2R. apply IZR_lt in Hmn. pose proof (pow2_pos e). nra.
Qed.

Lemma F2R_lt_inv m n e : F2R m e < F2R n e -> (m < n)%Z.
Proof.
  intros H. destruct (Z_lt_le_dec m n) as [|Hge]; [done|].
  apply (F2R_le _ _ e) in Hge. lra.
Qed.

Lemma F2R_le_inv m n e : F2R m e <= F2R n e -> (m <= n)%Z.
Proof.
  intros H. destruct (Z_le_gt_dec m n) as [|Hgt]; [done|].
  apply Z.gt_lt, (F2R_lt _ _ e) in Hgt. lra.
Qed.

Lemma located_bounds v m e l :
  located v m e l -> F2R m e <= v < F2R (m + 1) e.
Proof.
  pose proof (pow2_pos e) as Hp.
  intros []; rewrite ?F2R_plus, ?F2R_1 in *;
    replace (2 * m)%Z with (m + m)%Z in * by lia;
    rewrite ?F2R_plus in *; lra.
Qed.

Lemma shr_1_located v e mrs :
  (0 <= shr_m mrs)%Z -> locrec v e mrs ->
  (0 <= shr_m (shr_1 mrs))%Z /\ locrec v (e + 1) (shr_1 mrs).
Proof.
  unfold locrec. destruct mrs as [m r s]. cbn [shr_m]. intros Hm Hl.
  assert (Hcases : ((exists p, m = 2 * p /\ 0 <= p /\
                      shr_1 {| shr_m := m; shr_r := r; shr_s := s |} =
                      {| shr_m := p; shr_r := false; shr_s := r || s |}) \/
                   (exists p, m = 2 * p + 1 /\ 0 <= p /\
                      shr_1 {| shr_m := m; shr_r := r; shr_s := s |} =
                      {| shr_m := p; shr_r := true; shr_s := r || s |}))%Z).
  { destruct m as [|[p|p|]|p]; try lia.
    - left. exists 0%Z. repeat split; lia.
    - right. exists (Z.pos p). repeat split; lia.
    - left. exists (Z.pos p). repeat split; lia.
    - right. exists 0%Z. repeat split; lia. }
  pose proof (pow2_pos e) as Hpe.
  destruct Hcases as [(p & -> & Hp & ->)|(p & -> & Hp & ->)]; cbn [shr_m];
    (split; [done|]);
    destruct r, s; cbn in *; inversion Hl; subst; constructor;
    unfold F2R in *; rewrite ?pow2_succ;
    rewrite ?plus_IZR, ?mult_IZR, ?plus_IZR, ?mult_IZR in *; nra.
Qed.

Lemma iter_pos_shr_1_located v p : forall e mrs,
  (0 <= shr_m mrs)%Z -> locrec v e mrs ->
  (0 <= shr_m (SpecFloat.iter_pos shr_1 p mrs))%Z /\
  locrec v (e + Z.pos p) (SpecFloat.iter_pos shr_1 p mrs).
Proof.
  induction p as [p IH|p IH|]; intros e mrs Hm Hl; cbn [SpecFloat.iter_pos].
  - destruct (shr_1_located v e mrs Hm Hl) as [Hm1 Hl1].
    destruct (IH _ _ Hm1 Hl1) as [Hm2 Hl2].
    destruct (IH _ _ Hm2 Hl2) as [Hm3 Hl3].
    split; [done|]. now replace (e + Z.pos p~1)%Z with (e + 1 + Z.pos p + Z.pos p)%Z by lia.
  - destruct (IH _ _ Hm Hl) as [Hm2 Hl2].
    destruct (IH _ _ Hm2 Hl2) as [Hm3 Hl3].
    split; [done|]. now replace (e + Z.pos p~0)%Z with (e + Z.pos p + Z.pos p)%Z by lia.
  - now apply shr_1_located.
Qed.

Lemma locrec_of_loc v m e l :
  located v m e l -> locrec v e (shr_record_of_loc m l).
Proof. unfold locrec. now destruct l as [|[]]. Qed.

Lemma shr_m_of_loc m l : shr_m (shr_record_of_loc m l) = m.
Proof. now destruct l as [|[]]. Qed.

(** Shifting a located mantissa right by [n] places. *)
Lemma shr_located v m e l n :
  (0 <= m)%Z -> located v m e l ->
  (0 <= shr_m (shr (shr_record_of_loc m l) e n).1)%Z /\
  (shr (shr_record_of_loc m l) e n).2 = (e + Z.max 0 n)%Z /\
  locrec v (e + Z.max 0 n) (shr (shr_record_of_loc m l) e n).1.
Proof.
  intros Hm Hl. apply locrec_of_loc in Hl.
  rewrite <- (shr_m_of_loc m l) in Hm.
  destruct n as [|p|p]; cbn [shr fst snd].
  - rewrite Z.add_0_r. done.
  - destruct (iter_pos_shr_1_located v p e _ Hm Hl). rewrite Z.max_r by lia. done.
  - rewrite Z.add_0_r. done.
Qed.

(** ** Digits *)

Lemma digits2_pos_size p : digits2_pos p = Pos.size p.
Proof. induction p; cbn; congruence. Qed.

Lemma Zdigits2_bounds m :
  (0 < m)%Z -> (2 ^ (Zdigits2 m - 1) <= m < 2 ^ Zdigits2 m)%Z /\ (0 < Zdigits2 m)%Z.
Proof.
  destruct m as [|p|p]; try lia. intros _. cbn [Zdigits2].
  rewrite digits2_pos_size.
  pose proof (Pos.size_gt p) as Hgt. pose proof (Pos.size_le p) as Hle.
  apply Pos2Z.pos_lt_pos in Hgt. apply Pos2Z.pos_le_pos in Hle.
  rewrite Pos2Z.inj_pow in Hgt, Hle.
  split; [|lia]. split; [|lia].
  assert (2 ^ Z.pos (Pos.size p) = 2 * 2 ^ (Z.pos (Pos.size p) - 1))%Z.
  { rewrite <- Z.pow_succ_r by lia. f_equal. lia. }
  lia.
Qed.

(** ** Rounding a located mantissa to nearest, ties to even *)

Lemma rne_bounds m l :
  (m <= round_nearest_even m l <= m + 1)%Z.
Proof. destruct l as [|[]]; cbn; try lia. destruct (Z.even m); lia. Qed.

Lemma rne_le_int v m e l N :
  located v m e l -> v <= F2R N e -> (round_nearest_even m l <= N)%Z.
Proof.
  intros Hl Hv. pose proof (located_bounds _ _ _ _ Hl) as [Hlo Hhi].
  assert (m <= N)%Z by (apply (F2R_le_inv _ _ e); lra).
  destruct (Z.eq_dec m N) as [->|Hne].
  - assert (v = F2R N e) by lra.
    inversion Hl; subst; cbn; try lia; exfalso;
      unfold F2R in *; pose proof (pow2_pos e);
      rewrite ?plus_IZR, ?mult_IZR in *; nra.
  - pose proof (rne_bounds m l). lia.
Qed.

Lemma rne_ge_int v m e l N :
  located v m e l -> F2R N e <= v -> (N <= round_nearest_even m l)%Z.
Proof.
  intros Hl Hv. pose proof (located_bounds _ _ _ _ Hl) as [Hlo Hhi].
  assert (N < m + 1)%Z by (apply (F2R_lt_inv _ _ e); lra).
  pose proof (rne_bounds m l). lia.
Qed.

Lemma rne_mono v1 v2 m1 m2 e l1 l2 :
  located v1 m1 e l1 -> located v2 m2 e l2 -> v1 <= v2 ->
  (round_nearest_even m1 l1 <= round_nearest_even m2 l2)%Z.
Proof.
  intros H1 H2 Hv.
  pose proof (located_bounds _ _ _ _ H1) as [Hlo1 Hhi1].
  pose proof (located_bounds _ _ _ _ H2) as [Hlo2 Hhi2].
  assert (m1 < m2 + 1)%Z by (apply (F2R_lt_inv _ _ e); lra).
  destruct (Z.eq_dec m1 m2) as [->|Hne].
  - pose proof (pow2_pos e).
    inversion H1; inversion H2; subst; cbn; try lia;
      try (destruct (Z.even m2); lia);
      exfalso; unfold F2R in *;
      rewrite ?plus_IZR, ?mult_IZR in *; nra.
  - pose proof (rne_bounds m1 l1). pose proof (rne_bounds m2 l2). lia.
Qed.

(** ** The binary64 format *)

Lemma fexp64 e : fexp prec emax e = Z.max (e - 53) (-1074).
Proof. reflexivity. Qed.

Lemma F2R_pow2 n e : (0 <= n)%Z -> F2R (2 ^ n) e = pow2 (n + e).
Proof. intros Hn. unfold F2R. now rewrite pow2_add, (pow2_IZR n). Qed.

Lemma shr_fexp_described v m e l :
  0 < v -> (0 <= m)%Z -> located v m e l ->
  (e <= fexp prec emax (Zdigits2 m + e))%Z ->
  (0 <= shr_m (shr_fexp prec emax m e l).1)%Z /\
  described v (shr_m (shr_fexp prec emax m e l).1) (shr_fexp prec emax m e l).2
    (loc_of_shr_record (shr_fexp prec emax m e l).1).
Proof.
  intros Hv Hm Hl He. unfold shr_fexp.
  set (T := fexp prec emax (Zdigits2 m + e)) in *.
  destruct (shr_located v m e l (T - e) Hm Hl) as (Hm' & -> & Hl').
  replace (e + Z.max 0 (T - e))%Z with T in * by lia.
  split; [done|]. split; [exact Hl'|].
  pose proof (located_bounds _ _ _ _ Hl) as [Hlo Hhi].
  unfold T in *. rewrite fexp64 in *. clear T.
  destruct (Z.eq_dec m 0%Z) as [->|Hm0].
  - cbn [Zdigits2] in *. rewrite Z.add_0_l in *.
    cbn in Hhi. rewrite F2R_1 in Hhi.
    split; [lia|]. split; [|lia].
    eapply Rlt_le_trans; [exact Hhi|]. apply pow2_le. lia.
  - destruct (Zdigits2_bounds m ltac:(lia)) as [[Hd1 Hd2] Hd0].
    set (d := Zdigits2 m) in *.
    split; [lia|]. split.
    + eapply Rlt_le_trans; [exact Hhi|].
      eapply Rle_trans; [apply (F2R_le _ (2 ^ d)); lia|].
      rewrite F2R_pow2 by lia. apply pow2_le. lia.
    + intros HT. eapply Rle_trans; [|exact Hlo].
      eapply Rle_trans; [|apply (F2R_le (2 ^ (d - 1))); lia].
      rewrite F2R_pow2 by lia. apply pow2_le. lia.
Qed.

Lemma shr_fexp_exact N T :
  (0 <= N <= 2 ^ 53)%Z -> (-1074 <= T)%Z ->
  shr_fexp prec emax N T loc_Exact =
  if (N =? 2 ^ 53)%Z
  then ({| shr_m := 2 ^ 52; shr_r := false; shr_s := false |}, (T + 1)%Z)
  else ({| shr_m := N; shr_r := false; shr_s := false |}, T).
Proof.
  intros HN HT. unfold shr_fexp. rewrite fexp64. cbn [shr_record_of_loc].
  destruct (Z.eqb_spec N (2 ^ 53)) as [->|Hne].
  - change (Zdigits2 (2 ^ 53)) with 54%Z.
    replace ((54 + T - 53) `max` (-1074) - T)%Z with 1%Z by lia.
    reflexivity.
  - destruct (Z.eq_dec N 0%Z) as [->|HN0].
    + cbn [Zdigits2].
      destruct ((0 + T - 53) `max` (-1074) - T)%Z as [|p|p] eqn:E; try reflexivity; lia.
    + destruct (Zdigits2_bounds N ltac:(lia)) as [[Hd1 Hd2] Hd0].
      assert (Zdigits2 N <= 53)%Z.
      { destruct (Z_le_gt_dec (Zdigits2 N) 53) as [|Hgt]; [done|].
        assert (2 ^ 53 <= 2 ^ (Zdigits2 N - 1))%Z by (apply Z.pow_le_mono_r; lia).
        lia. }
      destruct ((Zdigits2 N + T - 53) `max` (-1074) - T)%Z as [|p|p] eqn:E;
        try reflexivity; lia.
Qed.

Lemma binary_round_aux_finish sx v m e l :
  0 < v -> (0 <= m)%Z -> located v m e l ->
  (e <= fexp prec emax (Zdigits2 m + e))%Z ->
  exists n T l',
    described v n T l' /\ (0 <= n)%Z /\
    binary_round_aux prec emax sx m e l = finish sx (round_nearest_even n l') T.
Proof.
  intros Hv Hm Hl He.
  destruct (shr_fexp_described v m e l Hv Hm Hl He) as [Hn Hd].
  unfold binary_round_aux.
  destruct (shr_fexp prec emax m e l) as [mrs T]. cbn [fst snd] in *.
  exists (shr_m mrs), T, (loc_of_shr_record mrs). split; [done|]. split; [done|].
  destruct Hd as (Hloc & HT & Hhi & Hlo).
  pose proof (rne_bounds (shr_m mrs) (loc_of_shr_record mrs)) as Hr.
  assert (round_nearest_even (shr_m mrs) (loc_of_shr_record mrs) <= 2 ^ 53)%Z.
  { apply (rne_le_int v _ T); [done|].
    rewrite F2R_pow2 by lia. left. now rewrite Z.add_comm. }
  rewrite shr_fexp_exact by lia. unfold finish.
  destruct (_ =? 2 ^ 53)%Z; reflexivity.
Qed.

Lemma described_rounded v n T l :
  described v n T l -> (0 <= n)%Z -> rounded (round_nearest_even n l) T.
Proof.
  intros (Hloc & HT & Hhi & Hlo) Hn.
  pose proof (rne_bounds n l) as Hr.
  split; [split; [lia|]|split; [done|]].
  - apply (rne_le_int v _ T); [done|].
    rewrite F2R_pow2 by lia. left. now rewrite Z.add_comm.
  - intros HT'. apply (rne_ge_int v _ T); [done|].
    rewrite F2R_pow2 by lia. rewrite Z.add_comm. now apply Hlo.
Qed.

Lemma canonical_order N1 T1 N2 T2 :
  (0 < N1 < 2 ^ 53)%Z -> (0 < N2 < 2 ^ 53)%Z ->
  (-1074 <= T2)%Z -> ((-1074 < T1)%Z -> (2 ^ 52 <= N1)%Z) ->
  F2R N1 T1 <= F2R N2 T2 ->
  (T1 < T2 \/ T1 = T2 /\ N1 <= N2)%Z.
Proof.
  intros H1 H2 HT2 Hc Hle.
  destruct (Z.lt_trichotomy T1 T2) as [|[->|Hgt]]; [by left| |].
  - right. split; [done|]. now apply (F2R_le_inv _ _ T2).
  - exfalso. specialize (Hc ltac:(lia)).
    assert (F2R (2 ^ 52) T1 <= F2R N1 T1) by (apply F2R_le; lia).
    assert (F2R N2 T2 < F2R (2 ^ 53) T2) by (apply F2R_lt; lia).
    rewrite F2R_pow2 in * by lia.
    assert (pow2 (53 + T2) <= pow2 (52 + T1)) by (apply pow2_le; lia).
    lra.
Qed.

Lemma finish_mono N1 T1 N2 T2 :
  rounded N1 T1 -> rounded N2 T2 -> F2R N1 T1 <= F2R N2 T2 ->
  SFleb (finish false N1 T1) (finish false N2 T2) = true.
Proof.
  intros ([HN1a HN1b] & HT1 & Hc1) ([HN2a HN2b] & HT2 & Hc2) Hle.
  destruct (Z.eq_dec N1 0%Z) as [->|HN1].
  { unfold finish at 1. cbn. unfold finish.
    destruct (Z.eqb_spec N2 (2 ^ 53)) as [->|_]; cbn [fst snd].
    - change (2 ^ 52)%Z with (Z.pos (2 ^ 52)). cbn iota.
      now destruct (T2 + 1 <=? 971)%Z.
    - destruct N2 as [|p|p]; [done| |lia]. now destruct (T2 <=? 971)%Z. }
  assert (0 < N2)%Z.
  { destruct (Z.eq_dec N2 0%Z) as [->|]; [|lia]. exfalso.
    assert (F2R 0 T1 < F2R N1 T1) by (apply F2R_lt; lia).
    unfold F2R in *. lra. }
  set (NT1 := if (N1 =? 2 ^ 53)%Z then (2 ^ 52, T1 + 1)%Z else (N1, T1)).
  set (NT2 := if (N2 =? 2 ^ 53)%Z then (2 ^ 52, T2 + 1)%Z else (N2, T2)).
  assert (P1 : (0 < NT1.1 < 2 ^ 53)%Z /\ (-1074 <= NT1.2)%Z /\
               ((-1074 < NT1.2)%Z -> (2 ^ 52 <= NT1.1)%Z) /\
               F2R NT1.1 NT1.2 = F2R N1 T1).
  { unfold NT1. destruct (Z.eqb_spec N1 (2 ^ 53)) as [->|]; cbn [fst snd].
    - repeat split; try lia. rewrite !F2R_pow2 by lia. f_equal. lia.
    - repeat split; try lia. }
  assert (P2 : (0 < NT2.1 < 2 ^ 53)%Z /\ (-1074 <= NT2.2)%Z /\
               ((-1074 < NT2.2)%Z -> (2 ^ 52 <= NT2.1)%Z) /\
               F2R NT2.1 NT2.2 = F2R N2 T2).
  { unfold NT2. destruct (Z.eqb_spec N2 (2 ^ 53)) as [->|]; cbn [fst snd].
    - repeat split; try lia. rewrite !F2R_pow2 by lia. f_equal. lia.
    - repeat split; try lia. }
  unfold finish. fold NT1 NT2.
  destruct NT1 as [M1 E1], NT2 as [M2 E2]. cbn [fst snd] in *.
  destruct P1 as (HM1 & HE1 & HC1 & HV1), P2 as (HM2 & HE2 & HC2 & HV2).
  assert (Hord : (E1 < E2 \/ E1 = E2 /\ M1 <= M2)%Z).
  { apply canonical_order; try done. rewrite HV1, HV2. done. }
  destruct M1 as [|p1|p1]; try lia. destruct M2 as [|p2|p2]; try lia.
  destruct (Z.leb_spec E1 971), (Z.leb_spec E2 971); cbn; try done; try lia.
  destruct (Z.compare_spec E1 E2); try lia; try done.
  destruct Hord as [|[_ Hp]]; [lia|].
  change (PosDef.Pos.compare_cont Eq p1 p2) with (Pos.compare p1 p2).
  destruct (Pos.compare_spec p1 p2); try done. lia.
Qed.

Lemma described_mono v1 n1 T1 l1 v2 n2 T2 l2 :
  described v1 n1 T1 l1 -> described v2 n2 T2 l2 -> 0 < v1 <= v2 ->
  F2R (round_nearest_even n1 l1) T1 <= F2R (round_nearest_even n2 l2) T2.
Proof.
  intros (Hl1 & HT1 & Hhi1 & Hlo1) (Hl2 & HT2 & Hhi2 & Hlo2) [Hv1 Hv].
  destruct (Z.lt_trichotomy T1 T2) as [Hlt|[->|Hgt]].
  - specialize (Hlo2 ltac:(lia)).
    assert (B1 : (round_nearest_even n1 l1 <= 2 ^ (T2 + 52 - T1))%Z).
    { apply (rne_le_int v1 _ T1); [done|]. rewrite F2R_pow2 by lia.
      replace (T2 + 52 - T1 + T1)%Z with (T2 + 52)%Z by lia.
      assert (pow2 (T1 + 53) <= pow2 (T2 + 52)) by (apply pow2_le; lia). lra. }
    assert (B2 : (2 ^ 52 <= round_nearest_even n2 l2)%Z).
    { apply (rne_ge_int v2 _ T2); [done|]. rewrite F2R_pow2 by lia.
      now rewrite Z.add_comm. }
    apply (F2R_le _ _ T1) in B1. apply (F2R_le _ _ T2) in B2.
    rewrite F2R_pow2 in * by lia.
    replace (T2 + 52 - T1 + T1)%Z with (52 + T2)%Z in B1 by lia. lra.
  - apply F2R_le. now apply (rne_mono v1 v2 _ _ T2).
  - exfalso. specialize (Hlo1 ltac:(lia)).
    assert (pow2 (T2 + 53) <= pow2 (T1 + 52)) by (apply pow2_le; lia). lra.
Qed.

(** Rounding is monotone: of two located positive reals, the larger rounds
    to the larger (or equal) binary64 number. *)
Theorem binary_round_aux_mono v1 m1 e1 l1 v2 m2 e2 l2 :
  0 < v1 <= v2 ->
  (0 <= m1)%Z -> located v1 m1 e1 l1 ->
  (e1 <= fexp prec emax (Zdigits2 m1 + e1))%Z ->
  (0 <= m2)%Z -> located v2 m2 e2 l2 ->
  (e2 <= fexp prec emax (Zdigits2 m2 + e2))%Z ->
  SFleb (binary_round_aux prec emax false m1 e1 l1)
        (binary_round_aux prec emax false m2 e2 l2) = true.
Proof.
  intros [Hv1 Hv] Hm1 Hl1 He1 Hm2 Hl2 He2.
  destruct (binary_round_aux_finish false v1 m1 e1 l1) as (n1 & T1 & k1 & D1 & N1 & ->);
    try done.
  destruct (binary_round_aux_finish false v2 m2 e2 l2) as (n2 & T2 & k2 & D2 & N2 & ->);
    try done; [lra|].
  apply finish_mono; [by eapply described_rounded..|].
  now apply (described_mono v1 _ _ _ v2).
Qed.

(** ** Valid finite numbers *)

Lemma valid_finite s m e :
  valid_binary (S754_finite s m e) = true ->
  fexp prec emax (Zdigits2 (Z.pos m) + e) = e /\ (e <= 971)%Z.
Proof.
  unfold SpecFloat.valid_binary, bounded, canonical_mantissa.
  intros Hv. apply andb_prop in Hv as [H1 H2].
  apply Z.eqb_eq in H1. apply Z.leb_le in H2. split; [exact H1|exact H2].
Qed.

(** The order of [SFcompare] on valid positive finite numbers is the order
    of their values. *)
Lemma valid_value_le m1 e1 m2 e2 :
  valid_binary (S754_finite false m1 e1) = true ->
  valid_binary (S754_finite false m2 e2) = true ->
  SFleb (S754_finite false m1 e1) (S754_finite false m2 e2) = true ->
  F2R (Z.pos m1) e1 <= F2R (Z.pos m2) e2.
Proof.
  intros V1 V2 Hle.
  apply valid_finite in V1 as [C1 _]. apply valid_finite in V2 as [C2 _].
  rewrite fexp64 in C1, C2.
  destruct (Zdigits2_bounds (Z.pos m1) ltac:(lia)) as [[L1 U1] D1].
  destruct (Zdigits2_bounds (Z.pos m2) ltac:(lia)) as [[L2 U2] D2].
  set (d1 := Zdigits2 (Z.pos m1)) in *. set (d2 := Zdigits2 (Z.pos m2)) in *.
  unfold SFleb, SFcompare in Hle.
  destruct (Z.compare_spec e1 e2) as [->|Hlt|Hgt]; try discriminate.
  - apply F2R_le.
    change (PosDef.Pos.compare_cont Eq m1 m2) with (Pos.compare m1 m2) in Hle.
    destruct (Pos.compare_spec m1 m2); try discriminate; lia.
  - assert (F2R (Z.pos m1) e1 < F2R (2 ^ d1) e1) by (apply F2R_lt; lia).
    assert (F2R (2 ^ (d2 - 1)) e2 <= F2R (Z.pos m2) e2) by (apply F2R_le; lia).
    rewrite F2R_pow2 in * by lia.
    assert (pow2 (d1 + e1) <= pow2 (d2 - 1 + e2)) by (apply pow2_le; lia).
    lra.
Qed.

Lemma F2R_mult m1 e1 m2 e2 :
  F2R (m1 * m2) (e1 + e2) = F2R m1 e1 * F2R m2 e2.
Proof. unfold F2R. rewrite mult_IZR, pow2_add. lra. Qed.

Lemma F2R_pos m e : (0 < m)%Z -> 0 < F2R m e.
Proof.
  intros Hm. unfold F2R. apply IZR_lt in Hm. pose proof (pow2_pos e). nra.
Qed.

(** The exact product of two valid numbers carries enough bits to be
    rounded. *)
Lemma product_exponent mh eh ma ea :
  valid_binary (S754_finite false mh eh) = true ->
  valid_binary (S754_finite false ma ea) = true ->
  (eh + ea <= fexp prec emax (Zdigits2 (Z.pos (mh * ma)) + (eh + ea)))%Z.
Proof.
  intros Vh Va.
  apply valid_finite in Vh as [Ch _]. apply valid_finite in Va as [Ca _].
  rewrite fexp64 in *.
  destruct (Zdigits2_bounds (Z.pos mh) ltac:(lia)) as [[Lh Uh] Dh].
  destruct (Zdigits2_bounds (Z.pos ma) ltac:(lia)) as [[La Ua] Da].
  destruct (Zdigits2_bounds (Z.pos (mh * ma)) ltac:(lia)) as [[L U] D].
  set (dh := Zdigits2 (Z.pos mh)) in *. set (da := Zdigits2 (Z.pos ma)) in *.
  set (d := Zdigits2 (Z.pos (mh * ma))) in *.
  assert (dh + da - 1 <= d)%Z.
  { destruct (Z_le_gt_dec (dh + da - 1) d) as [|Hgt]; [done|]. exfalso.
    assert (2 ^ d <= 2 ^ (dh - 1 + (da - 1)))%Z by (apply Z.pow_le_mono_r; lia).
    rewrite Z.pow_add_r in * by lia.
    rewrite Pos2Z.inj_mul in U. nia. }
  lia.
Qed.

Lemma SFmul_finite_mono mh eh ma ea mb eb :
  valid_binary (S754_finite false mh eh) = true ->
  valid_binary (S754_finite false ma ea) = true ->
  valid_binary (S754_finite false mb eb) = true ->
  SFleb (S754_finite false ma ea) (S754_finite false mb eb) = true ->
  SFleb (SFmul prec emax (S754_finite false mh eh) (S754_finite false ma ea))
        (SFmul prec emax (S754_finite false mh eh) (S754_finite false mb eb)) = true.
Proof.
  intros Vh Va Vb Hle. cbn [SFmul xorb].
  pose proof (valid_value_le _ _ _ _ Va Vb Hle) as Hv.
  pose proof (F2R_pos (Z.pos mh) eh ltac:(lia)) as Hh.
  pose proof (F2R_pos (Z.pos ma) ea ltac:(lia)) as Ha.
  apply (binary_round_aux_mono
           (F2R (Z.pos mh) eh * F2R (Z.pos ma) ea) _ _ _
           (F2R (Z.pos mh) eh * F2R (Z.pos mb) eb)).
  - nra.
  - lia.
  - constructor. now rewrite Pos2Z.inj_mul, F2R_mult.
  - now apply product_exponent.
  - lia.
  - constructor. now rewrite Pos2Z.inj_mul, F2R_mult.
  - now apply product_exponent.
Qed.

(** ** Division *)

(** The quotient, its exponent and the location of the exact ratio, as
    [SFdiv_core_binary] computes them. *)
Lemma SFdiv_core_located m1 e1 m2 e2 :
  let v := F2R (Z.pos m1) e1 / F2R (Z.pos m2) e2 in
  let qel := SFdiv_core_binary prec emax (Z.pos m1) e1 (Z.pos m2) e2 in
  (0 <= qel.1.1)%Z /\
  located v qel.1.1 qel.1.2 qel.2 /\
  (qel.1.2 <= fexp prec emax (Zdigits2 qel.1.1 + qel.1.2))%Z.
Proof.
  intros v qel. unfold qel, SFdiv_core_binary.
  destruct (Zdigits2_bounds (Z.pos m1) ltac:(lia)) as [[L1 U1] D1].
  destruct (Zdigits2_bounds (Z.pos m2) ltac:(lia)) as [[L2 U2] D2].
  set (d1 := Zdigits2 (Z.pos m1)) in *. set (d2 := Zdigits2 (Z.pos m2)) in *.
  rewrite fexp64.
  set (e' := (((d1 + e1 - (d2 + e2) - 53) `max` (-1074)) `min` (e1 - e2))%Z).
  set (s := (e1 - e2 - e')%Z).
  assert (Hs : (0 <= s)%Z) by lia.
  set (m' := match s with
             | 0%Z => Z.pos m1
             | Z.pos _ => Z.shiftl (Z.pos m1) s
             | Z.neg _ => 0%Z
             end).
  assert (Hm' : m' = (Z.pos m1 * 2 ^ s)%Z).
  { unfold m'. destruct s as [|p|p] eqn:Es; [lia| |lia].
    now rewrite Z.shiftl_mul_pow2. }
  pose proof (Z_div_mod m' (Z.pos m2) ltac:(lia)) as Hdiv.
  destruct (Z.div_eucl m' (Z.pos m2)) as [q r]. destruct Hdiv as [Hqr Hr].
  cbn [fst snd].
  assert (Hpow : (0 < 2 ^ s)%Z) by (apply Z.pow_pos_nonneg; lia).
  assert (Hq : (0 <= q)%Z) by nia.
  assert (Hv : v * IZR (Z.pos m2) = (IZR q * IZR (Z.pos m2) + IZR r) * pow2 e').
  { rewrite <- mult_IZR, <- plus_IZR. rewrite (Z.mul_comm q), <- Hqr, Hm'.
    unfold v, F2R. replace e1 with (s + e' + e2)%Z by lia.
    rewrite !pow2_add, (pow2_IZR s), mult_IZR by done.
    pose proof (pow2_pos e2). assert (0 < IZR (Z.pos m2)) by (apply IZR_lt; lia).
    field. lra. }
  assert (HM : 0 < IZR (Z.pos m2)) by (apply IZR_lt; lia).
  pose proof (pow2_pos e') as HP.
  destruct Hr as [Hr0 Hr1].
  split; [done|]. split.
  - assert (Hex : r = 0%Z -> located v q e' loc_Exact).
    { intros ->. constructor. unfold F2R. nra. }
    apply IZR_lt in Hr1.
    unfold new_location.
    destruct (Z.even (Z.pos m2)) eqn:Hev;
      unfold new_location_even, new_location_odd;
      (destruct (Z.eqb_spec r 0) as [->|Hrne]; [now apply Hex|]);
      assert (Hrpos : 0 < IZR r) by (apply IZR_lt; lia).
    + destruct (Z.compare_spec (2 * r) (Z.pos m2)) as [E|E|E];
        [apply (f_equal IZR) in E|apply IZR_lt in E..];
        rewrite mult_IZR in E; constructor; unfold F2R;
        rewrite ?plus_IZR, ?mult_IZR; nra.
    + assert (Hodd : (2 * r <> Z.pos m2)%Z).
      { intros E. rewrite <- E, Z.even_mul in Hev. discriminate Hev. }
      destruct (Z.compare_spec (2 * r + 1) (Z.pos m2)) as [E|E|E].
      * assert (E' : (2 * r < Z.pos m2)%Z) by lia. apply IZR_lt in E'.
        rewrite mult_IZR in E'. constructor; unfold F2R;
          rewrite ?plus_IZR, ?mult_IZR; nra.
      * assert (E' : (2 * r < Z.pos m2)%Z) by lia. apply IZR_lt in E'.
        rewrite mult_IZR in E'. constructor; unfold F2R;
          rewrite ?plus_IZR, ?mult_IZR; nra.
      * assert (E' : (Z.pos m2 < 2 * r)%Z) by lia. apply IZR_lt in E'.
        rewrite mult_IZR in E'. constructor; unfold F2R;
          rewrite ?plus_IZR, ?mult_IZR; nra.
  - rewrite fexp64.
    destruct (Z.eq_dec q 0%Z) as [->|Hq0].
    + cbn [Zdigits2].
      assert (d1 - 1 + s < d2)%Z; [|lia].
      apply (Z.pow_lt_mono_r_iff 2); [lia..|].
      rewrite Z.pow_add_r by lia. nia.
    + destruct (Zdigits2_bounds q ltac:(lia)) as [[Lq Uq] Dq].
      set (dq := Zdigits2 q) in *.
      assert (d1 - 1 + s < dq + d2)%Z; [|lia].
      apply (Z.pow_lt_mono_r_iff 2); [lia..|].
      rewrite !Z.pow_add_r by lia. nia.
Qed.

Lemma SFdiv_finite_mono m1 e1 m2 e2 md ed :
  valid_binary (S754_finite false m1 e1) = true ->
  valid_binary (S754_finite false m2 e2) = true ->
  SFleb (S754_finite false m1 e1) (S754_finite false m2 e2) = true ->
  SFleb (SFdiv prec emax (S754_finite false m1 e1) (S754_finite false md ed))
        (SFdiv prec emax (S754_finite false m2 e2) (S754_finite false md ed)) = true.
Proof.
  intros V1 V2 Hle. cbn [SFdiv xorb].
  pose proof (valid_value_le _ _ _ _ V1 V2 Hle) as Hv.
  pose proof (F2R_pos (Z.pos m1) e1 ltac:(lia)) as H1.
  pose proof (F2R_pos (Z.pos md) ed ltac:(lia)) as Hd.
  destruct (SFdiv_core_located m1 e1 md ed) as (Q1 & L1 & P1).
  destruct (SFdiv_core_located m2 e2 md ed) as (Q2 & L2 & P2).
  destruct (SFdiv_core_binary prec emax (Z.pos m1) e1 (Z.pos md) ed) as [[q1 x1] l1].
  destruct (SFdiv_core_binary prec emax (Z.pos m2) e2 (Z.pos md) ed) as [[q2 x2] l2].
  cbn [fst snd] in *.
  assert (Hvv : 0 < F2R (Z.pos m1) e1 / F2R (Z.pos md) ed <=
                F2R (Z.pos m2) e2 / F2R (Z.pos md) ed).
  { split; [apply Rdiv_lt_0_compat; assumption|].
    apply Rmult_le_compat_r; [|exact Hv]. left. now apply Rinv_0_lt_compat. }
  exact (binary_round_aux_mono _ _ _ _ _ _ _ _ Hvv Q1 L1 P1 Q2 L2 P2).
Qed.

(** ** Signs *)

Lemma binary_round_aux_abs s m e l :
  SFabs (binary_round_aux prec emax s m e l) =
  binary_round_aux prec emax false m e l.
Proof.
  unfold binary_round_aux.
  destruct (shr_fexp prec emax m e l) as [mrs' e'].
  destruct (shr_fexp prec emax _ e' loc_Exact) as [mrs'' e''].
  destruct (shr_m mrs''); try reflexivity. now destruct (_ <=? _)%Z.
Qed.

Lemma binary_round_aux_sign s m e l :
  match binary_round_aux prec emax s m e l with
  | S754_zero s' | S754_infinity s' | S754_finite s' _ _ => s' = s
  | S754_nan => True
  end.
Proof.
  unfold binary_round_aux.
  destruct (shr_fexp prec emax m e l) as [mrs' e'].
  destruct (shr_fexp prec emax _ e' loc_Exact) as [mrs'' e''].
  destruct (shr_m mrs''); try done. now destruct (_ <=? _)%Z.
Qed.

(** A rounded negative value is not above zero; a rounded positive value is
    not above +infinity. *)
Lemma binary_round_aux_neg m e l :
  SFltb (S754_zero false) (binary_round_aux prec emax true m e l) = false.
Proof.
  pose proof (binary_round_aux_sign true m e l) as H.
  destruct (binary_round_aux prec emax true m e l); subst; reflexivity.
Qed.

Lemma binary_round_aux_le_infinity m e l :
  binary_round_aux prec emax false m e l = S754_nan \/
  SFleb (binary_round_aux prec emax false m e l) (S754_infinity false) = true.
Proof.
  pose proof (binary_round_aux_sign false m e l) as H.
  destruct (binary_round_aux prec emax false m e l); subst; auto.
Qed.

(** ** Products and quotients of binary64 numbers *)

Theorem SFmul_abs_mono h a b :
  valid_binary h = true -> valid_binary a = true -> valid_binary b = true ->
  SFleb (SFabs a) (SFabs b) = true ->
  below (SFabs (SFmul prec emax h a)) (SFabs (SFmul prec emax h b)).
Proof.
  intros Vh Va Vb Hle. unfold below.
  destruct h as [sh|sh| |sh mh eh], a as [sa|sa| |sa ma ea], b as [sb|sb| |sb mb eb];
    try discriminate Hle; cbn [SFmul SFabs]; auto.
  - rewrite binary_round_aux_abs.
    destruct (binary_round_aux_le_infinity (Z.pos (mh * ma)) (eh + ea) loc_Exact);
      auto.
  - rewrite !binary_round_aux_abs. right. right.
    apply (SFmul_finite_mono mh eh ma ea mb eb); done.
Qed.

Theorem SFdiv_mono n1 n2 d :
  valid_binary n1 = true -> valid_binary n2 = true ->
  SFabs n1 = n1 -> SFabs n2 = n2 -> below n1 n2 ->
  SFltb (S754_zero false) (SFdiv prec emax n1 d) = false \/
  SFleb (SFdiv prec emax n1 d) (SFdiv prec emax n2 d) = true.
Proof.
  intros V1 V2 A1 A2 [->|[->|Hle]].
  - left. reflexivity.
  - left. now destruct d as [?|?| |? ? ?].
  - destruct n1 as [s1|s1| |s1 m1 e1], n2 as [s2|s2| |s2 m2 e2];
      try discriminate Hle; cbn in A1, A2; simplify_eq;
      destruct d as [sd|sd| |sd md ed]; try destruct sd;
      cbn [SFdiv xorb]; auto;
      try (left;
           destruct (SFdiv_core_binary prec emax (Z.pos m1) e1 (Z.pos md) ed)
             as [[q x] l];
           apply binary_round_aux_neg).
    + destruct (SFdiv_core_binary prec emax (Z.pos m1) e1 (Z.pos md) ed)
        as [[q x] l].
      destruct (binary_round_aux_le_infinity q x l) as [E|E];
        [left; now rewrite E|now right].
    + right. exact (SFdiv_finite_mono m1 e1 m2 e2 md ed V1 V2 Hle).
Qed.

End RoundingFacts.

(** * Binary64 at the edges: equal times, zero divisors, signs *)

Module F64Edge.
Import F64 F64Facts.

Lemma finite_SF x :
  finite x ↔
  match Prim2SF x with S754_zero _ | S754_finite _ _ _ => True | _ => False end.
Proof.
  rewrite finite_spec. destruct (Prim2SF x) as [s|s| |s m e]; split; try done;
    try (intros [? [?|(? & ? & ?)]]; discriminate); eauto 6.
Qed.

(** The difference of two equal times: a zero when they are finite, NaN when
    they are the same infinity. *)
Lemma sub_eq_cases x y :
  (x =? y) = true →
  finite x ∧ (∃ s, Prim2SF (x - y) = S754_zero s) ∨
  ¬ finite x ∧ Prim2SF (x - y) = S754_nan.
Proof.
  rewrite finite_SF, eqb_key, sub_spec.
  destruct (Prim2SF x) as [[]|[]| |[] mx ex], (Prim2SF y) as [[]|[]| |[] my ey];
    cbn [is_number andb key]; try discriminate;
    try (intros _; left; split; [exact I|eexists; reflexivity]);
    match goal with
    | |- context [lex3 ?a ?b] =>
        pose proof (lex3_spec a b) as E; destruct (lex3 a b); try discriminate
    end;
    inversion E; subst; intros _;
    try (right; split; [tauto|reflexivity]);
    left; (split; [exact I|]);
    try replace ex with ey by lia;
    unfold SF64sub, SFsub; rewrite Z.sub_diag; eexists; reflexivity.
Qed.

Lemma sub_eq_zero x y :
  (x =? y) = true → ((x - y =? 0) = true ↔ finite x).
Proof.
  intros E. rewrite eqb_zero.
  destruct (sub_eq_cases x y E) as [[Hf Hz]|[Hf Hn]]; [tauto|].
  rewrite Hn. split; [intros [s H]; discriminate H|tauto].
Qed.

(** With a step that is a zero or NaN, a cell's error is a zero exactly when
    the step is a zero, the correction is finite and the denominator is a
    number other than zero; it is NaN otherwise. *)
Lemma cell_term_zero h d den :
  znan h →
  ((abs (h * d) / den =? 0) = true ↔
   (h =? 0) = true ∧ finite d ∧ (den =? den) = true ∧ (den =? 0) = false).
Proof.
  unfold znan. rewrite finite_SF, !eqb_zero, !FloatAxioms.eqb_spec.
  rewrite div_spec, abs_spec, mul_spec, Prim2SF_zero.
  destruct (Prim2SF h) as [sh|sh| |sh mh eh]; try discriminate; intros _;
    destruct (Prim2SF d) as [sd|sd| |sd md ed],
             (Prim2SF den) as [sn|[]| |[] mn en];
    cbn; rewrite ?Z.compare_refl, ?Pos.compare_cont_refl; cbn;
    split;
    try (intros [s H]; discriminate H);
    try (intros (_ & H & _); exact (False_ind _ H));
    try (intros (_ & _ & H & _); discriminate H);
    try (intros (_ & _ & _ & H); discriminate H);
    try (intros ([s H] & _); discriminate H);
    try (intros _; eauto 8).
Qed.

Lemma not_finite_div_zero y h : (h =? 0) = true → ¬ finite (y / h).
Proof.
  intros Hh Hf. apply eqb_zero in Hh as [s Hh].
  apply finite_spec in Hf as [s' Hf]. rewrite div_spec, Hh in Hf.
  destruct (Prim2SF y) as [?|?| |? ? ?]; cbn in Hf;
    destruct Hf as [Hf|(m' & e' & Hf)]; discriminate.
Qed.

Lemma not_finite_add_r x y : ¬ finite y → ¬ finite (x + y).
Proof.
  intros Hy Hf. apply Hy. apply finite_spec.
  apply finite_spec in Hf as [s' Hf]. rewrite add_spec in Hf.
  destruct (Prim2SF y) as [sy|sy| |sy my ey]; eauto.
  - destruct (Prim2SF x) as [?|sx| |? ? ?]; cbn in Hf;
      try (destruct Hf as [Hf|(m' & e' & Hf)]; discriminate).
    destruct sx, sy; destruct Hf as [Hf|(m' & e' & Hf)]; discriminate.
  - destruct (Prim2SF x) as [?|sx| |? ? ?]; cbn in Hf;
      destruct Hf as [Hf|(m' & e' & Hf)]; discriminate.
Qed.

Lemma nan_div_zero_zero y h : znan y → (h =? 0) = true → (y / h =? y / h) = false.
Proof.
  unfold znan. intros Hy Hh. apply eqb_zero in Hh as [s Hh].
  rewrite FloatAxioms.eqb_spec, div_spec, Hh.
  destruct (Prim2SF y) as [?|?| |? ? ?]; try discriminate; reflexivity.
Qed.

Lemma abs_mul_abs h d d' : abs d = abs d' → abs (h * d) = abs (h * d').
Proof.
  intros E. apply Prim2SF_inj. apply (f_equal Prim2SF) in E.
  rewrite !abs_spec, !mul_spec in *.
  destruct (Prim2SF h) as [sh|sh| |sh mh eh],
           (Prim2SF d) as [sd|sd| |sd md ed], (Prim2SF d') as [sd'|sd'| |sd' md' ed'];
    cbn [SFabs] in E; try discriminate E; cbn [SF64mul SFmul SFabs]; try reflexivity.
  injection E as -> ->.
  unfold SF64mul. cbn [SFmul]. now rewrite !RoundingFacts.binary_round_aux_abs.
Qed.

End F64Edge.

(** * Running maxima *)

Section RunningMax.

Lemma std_max_cases a b :
  std_max a b = a ∧ (a <? b) = false ∨ std_max a b = b ∧ (a <? b) = true.
Proof. unfold std_max. destruct (a <? b); auto. Qed.

Lemma std_max_ge_l a b : (a =? a) = true → (a <=? std_max a b) = true.
Proof.
  intros Ha. destruct (std_max_cases a b) as [[-> _]|[-> Hlt]].
  - now rewrite F64Facts.leb_refl.
  - now apply F64Facts.ltb_leb.
Qed.

Lemma std_max_number a b : (a =? a) = true → (std_max a b =? std_max a b) = true.
Proof. intros Ha. eapply F64Facts.leb_number_r, std_max_ge_l, Ha. Qed.

Lemma std_max_not_below_r a b : (a =? a) = true → (std_max a b <? b) = false.
Proof.
  intros Ha. destruct (std_max_cases a b) as [[-> E]|[-> Hlt]]; [done|].
  apply F64Facts.leb_not_ltb. rewrite F64Facts.leb_refl.
  eapply F64Facts.leb_number_r, F64Facts.ltb_leb, Hlt.
Qed.

Lemma foldl_std_max_number l : ∀ a,
  (a =? a) = true → (foldl std_max a l =? foldl std_max a l) = true.
Proof.
  induction l as [|t l IH]; intros a Ha; cbn; [done|].
  apply IH, std_max_number, Ha.
Qed.

Lemma foldl_std_max_ge_init l : ∀ a,
  (a =? a) = true → (a <=? foldl std_max a l) = true.
Proof.
  induction l as [|t l IH]; intros a Ha; cbn.
  - now rewrite F64Facts.leb_refl.
  - eapply F64Facts.leb_trans; [apply std_max_ge_l, Ha|].
    apply IH, std_max_number, Ha.
Qed.

(** No element exceeds the running maximum. *)
Lemma foldl_std_max_upper l : ∀ a t,
  (a =? a) = true → t ∈ l → (foldl std_max a l <? t) = false.
Proof.
  induction l as [|t' l IH]; intros a t Ha Ht; [by apply elem_of_nil in Ht|].
  apply elem_of_cons in Ht as [->|Ht]; cbn.
  - destruct (foldl std_max (std_max a t') l <? t') eqn:E; [|done].
    pose proof (foldl_std_max_ge_init l _ (std_max_number a t' Ha)) as Hge.
    pose proof (F64Facts.leb_ltb_trans _ _ _ Hge E) as Hlt.
    now rewrite std_max_not_below_r in Hlt.
  - apply IH; [apply std_max_number, Ha|done].
Qed.

(** The running maximum is the initial value or one of the elements, and
    in the latter case that element exceeds the initial value. *)
Lemma foldl_std_max_attained l : ∀ a,
  (a =? a) = true →
  foldl std_max a l = a ∨
  foldl std_max a l ∈ l ∧ (a <? foldl std_max a l) = true.
Proof.
  induction l as [|t l IH]; intros a Ha; cbn; [by left|].
  destruct (IH (std_max a t) (std_max_number a t Ha)) as [E|[Hin Hlt]].
  - rewrite E. destruct (std_max_cases a t) as [[-> _]|[-> Hlt]]; [by left|].
    right. split; [apply list_elem_of_here|done].
  - right. split; [by apply list_elem_of_further|].
    eapply F64Facts.leb_ltb_trans; [apply std_max_ge_l, Ha|done].
Qed.

Lemma foldl_std_max_nonneg l a :
  (0 <=? a) = true → (0 <=? foldl std_max a l) = true.
Proof.
  intros Ha. eapply F64Facts.leb_trans; [exact Ha|].
  apply foldl_std_max_ge_init. eapply F64Facts.leb_number_r, Ha.
Qed.

(** Zeros and NaNs leave a non-negative running maximum where it is. *)
Lemma foldl_std_max_znan l : ∀ a,
  (0 <=? a) = true → Forall F64.znan l → foldl std_max a l = a.
Proof.
  induction l as [|t l IH]; intros a Ha Hl; cbn; [done|].
  apply Forall_cons in Hl as [Ht Hl].
  unfold std_max at 2. rewrite (F64Facts.znan_not_above t a Ht Ha). now apply IH.
Qed.

End RunningMax.

(** * The error norm *)

Section LoopFacts.

Lemma for_loop_S {A} n (body : A → nat → Result A) (a : A) :
  for_loop (S n) body a = for_loop n body a ≫= (λ x, body x n).
Proof. unfold for_loop. now rewrite seq_S, foldl_app. Qed.

Lemma for_loop_fail {A} (body : A → nat → Result A) (a : A) e n n' :
  n ≤ n' → for_loop n body a = Fail e → for_loop n' body a = Fail e.
Proof.
  induction 1 as [|n' _ IH]; [done|]. intros E. now rewrite for_loop_S, IH.
Qed.


End LoopFacts.

Section EnormFacts.
Context `{ExternalTypes} `{!Collaborators}.

Lemma cell_errors_lookup atol rtol h res wc c e :
  cell_errors atol rtol h res wc !! c = Some e ↔
  ∃ d w, cell res !! c = Some d ∧ cell wc !! c = Some w ∧
         e = cell_error atol rtol h d w.
Proof.
  unfold cell_errors. rewrite lookup_zip_with_Some.
  split; intros (d & w & H1 & H2 & H3); eauto 6.
Qed.

Lemma enorm_cell_loop atol rtol h res wc x n :
  n ≤ length (cell res) → n ≤ length (cell wc) →
  for_loop n (enorm_cell_step atol rtol h res wc) x =
  Ok (foldl std_max x (take n (cell_errors atol rtol h res wc))).
Proof.
  induction n as [|n IH]; intros Hr Hw; [done|].
  rewrite for_loop_S, IH by lia. cbn.
  destruct (lookup_lt_is_Some_2 (cell res) n) as [d Hd]; [lia|].
  destruct (lookup_lt_is_Some_2 (cell wc) n) as [w Hw']; [lia|].
  unfold enorm_cell_step, at_cell. rewrite Hd, Hw'. cbn.
  rewrite (take_S_r _ _ (cell_error atol rtol h d w)), foldl_app; [done|].
  apply cell_errors_lookup. eauto.
Qed.

Lemma std_max_zero_foldl l : std_max 0 (foldl std_max 0 l) = foldl std_max 0 l.
Proof.
  destruct (foldl_std_max_attained l 0 eq_refl) as [->|[_ Hlt]]; [done|].
  unfold std_max at 1. now rewrite Hlt.
Qed.

Lemma enorm_kernel_times pk :
  time (S_next_ (enorm_kernel pk)) = time (S_next_ pk) ∧
  S_inter_ (enorm_kernel pk) = S_inter_ pk.
Proof.
  unfold enorm_kernel, request_water_content, update_tolerances.
  destruct (continuation_to_ss_ pk); done.
Qed.

Lemma enorm_kernel_step_size pk : step_size (enorm_kernel pk) = step_size pk.
Proof.
  unfold step_size. destruct (enorm_kernel_times pk) as [-> ->]. done.
Qed.

Lemma enorm_local_eq u du pk wc :
  GetFieldData "water_content" (S_next_ (enorm_kernel pk)) = Ok wc →
  length (cell (data du)) ≤ length (cell wc) →
  enorm_local u du pk =
  Ok (foldl std_max 0
        (cell_errors (atol_ (enorm_kernel pk)) (rtol_ (enorm_kernel pk))
           (step_size pk) (data du) wc),
      enorm_kernel pk).
Proof.
  intros Hwc Hlen. unfold enorm_local. fold (enorm_kernel pk).
  rewrite Hwc. cbn [mbind Result_bind].
  rewrite enorm_cell_loop by done. cbn [mbind Result_bind].
  rewrite enorm_kernel_step_size, std_max_zero_foldl.
  rewrite firstn_all2; [done|].
  unfold cell_errors. rewrite length_zip_with. lia.
Qed.

Lemma enorm_eq u du peers pk wc :
  GetFieldData "water_content" (S_next_ (enorm_kernel pk)) = Ok wc →
  length (cell (data du)) ≤ length (cell wc) →
  enorm u du peers pk =
  Ok (MPI_Allreduce_MAX
        (foldl std_max 0
           (cell_errors (atol_ (enorm_kernel pk)) (rtol_ (enorm_kernel pk))
              (step_size pk) (data du) wc)) peers,
      enorm_kernel pk).
Proof.
  intros Hwc Hlen. unfold enorm. now rewrite (enorm_local_eq _ _ _ wc).
Qed.

(** What [enorm] has done to the kernel when its cell loop starts: the
    fields of the new state are those the water-content evaluator has
    returned for it, and the tolerances are the relaxed ones when the kernel
    continues to steady state, the kernel's own otherwise. *)
Lemma enorm_kernel_reads pk :
  fields (S_next_ (enorm_kernel pk)) =
    (HasFieldChanged "water_content" (S_next_ pk) (name_ pk)).2 ∧
  atol_ (enorm_kernel pk) =
    (if continuation_to_ss_ pk
     then atol0_ pk + 1e5 * atol0_ pk / (1.0 + time (S_next_ pk))
     else atol_ pk) ∧
  rtol_ (enorm_kernel pk) =
    (if continuation_to_ss_ pk
     then rtol0_ pk + 1e5 * rtol0_ pk / (1.0 + time (S_next_ pk))
     else rtol_ pk).
Proof.
  unfold enorm_kernel, request_water_content, update_tolerances.
  destruct (continuation_to_ss_ pk); done.
Qed.

End EnormFacts.

Section EnormClaims.
Context `{ExternalTypes} `{!Collaborators}.

(** C1.  [enorm] returns the largest of 0 and the per-cell values
    |h * du_c| / (atol + rtol * |wc_c|), where h is the time of the new
    snapshot minus the time of the old one, wc is the water content among
    the fields that the evaluator, asked for it on the new state, has
    returned, and the tolerances are those in force for the call: the result
    is not negative, no cell's value exceeds it, and it is the value of some
    cell, or 0 when no cell's value is positive (no cell at all, or values
    that are negative, zero or NaN).  The kernel is left with the evaluator's
    fields in its new state.  Across ranks the result is the maximum of the
    ranks' values.  The faces of du do not enter, nor does u.  For a single
    cell with h = 1, atol = 1e-5, rtol = 1e-4, wc = 10.0 and du = 1e-3 the
    result is the double 1e-3/1.01e-3, between 0.9900 and 0.9902. *)
Theorem enorm_is_cell_maximum (u du : TreeVector) (peers : list double)
    (pk : Richards) (wc : CompositeVector) :
  let h := time (S_next_ pk) - time (S_inter_ pk) in
  let atol := if continuation_to_ss_ pk
              then atol0_ pk + 1e5 * atol0_ pk / (1.0 + time (S_next_ pk))
              else atol_ pk in
  let rtol := if continuation_to_ss_ pk
              then rtol0_ pk + 1e5 * rtol0_ pk / (1.0 + time (S_next_ pk))
              else rtol_ pk in
  let err d w := abs (h * d) / (atol + rtol * abs w) in
  let updated := (HasFieldChanged "water_content" (S_next_ pk) (name_ pk)).2 in
  updated !! "water_content" = Some wc →
  length (cell (data du)) ≤ length (cell wc) →
  ∃ (r : double) (pk' : Richards),
    enorm u du [] pk = Ok (r, pk') ∧
    enorm u du peers pk = Ok (foldl std_max r peers, pk') ∧
    fields (S_next_ pk') = updated ∧
    (0 <=? r) = true ∧
    (∀ c d w, cell (data du) !! c = Some d → cell wc !! c = Some w →
              (r <? err d w) = false) ∧
    ((∃ c d w, cell (data du) !! c = Some d ∧ cell wc !! c = Some w ∧
               r = err d w) ∨
     (r = 0 ∧ ∀ c d w, cell (data du) !! c = Some d → cell wc !! c = Some w →
                       (0 <? err d w) = false)) ∧
    (∀ u' du', cell (data du') = cell (data du) →
               enorm u' du' peers pk = enorm u du peers pk) ∧
    (h = 1 → atol = 1e-5 → rtol = 1e-4 →
     cell (data du) = [1e-3] → cell wc = [10.0] →
     r = 1e-3 / 1.01e-3 ∧ (0.9900 <? r) = true ∧ (r <? 0.9902) = true).
Proof.
  intros h atol rtol err updated Hwc Hlen.
  destruct (enorm_kernel_reads pk) as (Hf & Ha & Hr).
  assert (Hwc' : GetFieldData "water_content" (S_next_ (enorm_kernel pk)) = Ok wc).
  { unfold GetFieldData. rewrite Hf. fold updated. now rewrite Hwc. }
  set (errs := cell_errors (atol_ (enorm_kernel pk)) (rtol_ (enorm_kernel pk))
                 (step_size pk) (data du) wc).
  assert (Herr : ∀ d w, cell_error (atol_ (enorm_kernel pk))
                          (rtol_ (enorm_kernel pk)) (step_size pk) d w = err d w).
  { intros d w. unfold cell_error, err. now rewrite Ha, Hr. }
  assert (Hin : ∀ c d w, cell (data du) !! c = Some d → cell wc !! c = Some w →
                         err d w ∈ errs).
  { intros c d w Hd Hw. apply list_elem_of_lookup. exists c.
    apply cell_errors_lookup. exists d, w. now rewrite Herr. }
  assert (Hatt :
    (∃ c d w, cell (data du) !! c = Some d ∧ cell wc !! c = Some w ∧
              foldl std_max 0 errs = err d w) ∨
    foldl std_max 0 errs = 0 ∧
    ∀ c d w, cell (data du) !! c = Some d → cell wc !! c = Some w →
             (0 <? err d w) = false).
  { destruct (foldl_std_max_attained errs 0 eq_refl) as [E|[Hr' _]].
    - right. split; [done|]. intros c d w Hd Hw. rewrite <- E.
      apply foldl_std_max_upper; [reflexivity|eauto].
    - left. apply list_elem_of_lookup in Hr' as [c Hc].
      apply cell_errors_lookup in Hc as (d & w & Hd & Hw & E).
      exists c, d, w. now rewrite <- Herr. }
  exists (foldl std_max 0 errs), (enorm_kernel pk).
  split; [now rewrite (enorm_eq u du [] pk wc)|].
  split; [now rewrite (enorm_eq u du peers pk wc)|].
  split; [exact Hf|].
  split; [now apply foldl_std_max_nonneg|].
  split; [intros c d w Hd Hw; apply foldl_std_max_upper; [reflexivity|eauto]|].
  split; [exact Hatt|].
  split.
  - intros u' du' E.
    unfold enorm, enorm_local, enorm_cell_step, at_cell. cbv zeta.
    now rewrite E.
  - intros Hh Hat Hrt Hdu Hw.
    assert (E : foldl std_max 0 errs = 1e-3 / 1.01e-3).
    { destruct Hatt as [(c & d & w & Hd & Hw' & ->)|[_ Hz]].
      - rewrite Hdu in Hd. rewrite Hw in Hw'.
        destruct c as [|c]; [|destruct c; discriminate Hd].
        injection Hd as <-. injection Hw' as <-.
        unfold err. rewrite Hh, Hat, Hrt. reflexivity.
      - exfalso. specialize (Hz 0%nat 1e-3 10.0).
        rewrite Hdu, Hw in Hz. specialize (Hz eq_refl eq_refl).
        unfold err in Hz. rewrite Hh, Hat, Hrt in Hz. discriminate Hz. }
    rewrite E. repeat split; reflexivity.
Qed.

Lemma enorm_kernel_tolerances pk :
  continuation_to_ss_ pk = true →
  atol_ (enorm_kernel pk) =
    atol0_ pk + 1e5 * atol0_ pk / (1.0 + time (S_next_ pk)) ∧
  rtol_ (enorm_kernel pk) =
    rtol0_ pk + 1e5 * rtol0_ pk / (1.0 + time (S_next_ pk)) ∧
  atol0_ (enorm_kernel pk) = atol0_ pk ∧
  rtol0_ (enorm_kernel pk) = rtol0_ pk.
Proof.
  intros Hc. unfold enorm_kernel, request_water_content, update_tolerances.
  rewrite Hc. done.
Qed.

(** C3.  With continuation to steady state active, every call
    of [enorm] recomputes the tolerances from the nominal ones before it
    looks at a cell: atol = atol0 + K*atol0/(1+t_new) and
    rtol = rtol0 + K*rtol0/(1+t_new) with K = 1e5, t_new the time of the new
    snapshot; the nominal values stay as they are. *)
Theorem enorm_continuation_tolerances (u du : TreeVector)
    (peers : list double) (pk : Richards) (wc : CompositeVector) :
  continuation_to_ss_ pk = true →
  GetFieldData "water_content" (S_next_ (enorm_kernel pk)) = Ok wc →
  length (cell (data du)) ≤ length (cell wc) →
  ∃ r pk',
    enorm u du peers pk = Ok (r, pk') ∧
    atol_ pk' = atol0_ pk + 1e5 * atol0_ pk / (1.0 + time (S_next_ pk)) ∧
    rtol_ pk' = rtol0_ pk + 1e5 * rtol0_ pk / (1.0 + time (S_next_ pk)) ∧
    atol0_ pk' = atol0_ pk ∧ rtol0_ pk' = rtol0_ pk.
Proof.
  intros Hc Hwc Hlen. eexists _, (enorm_kernel pk).
  split; [now apply (enorm_eq u du peers pk wc)|].
  now apply enorm_kernel_tolerances.
Qed.

(** C4.  With continuation active, atol0 = 1e-5 and the new
    snapshot at time 9, the recomputed absolute tolerance is the double
    1e-5 + 1e5*1e-5/10, which is 0.10001 (between 0.1 and 0.1001). *)
Theorem enorm_continuation_scenario (u du : TreeVector)
    (peers : list double) (pk : Richards) (wc : CompositeVector) :
  continuation_to_ss_ pk = true →
  atol0_ pk = 1e-5 →
  time (S_next_ pk) = 9 →
  GetFieldData "water_content" (S_next_ (enorm_kernel pk)) = Ok wc →
  length (cell (data du)) ≤ length (cell wc) →
  ∃ r pk',
    enorm u du peers pk = Ok (r, pk') ∧
    atol_ pk' = 1e-5 + 1e5 * 1e-5 / 10 ∧
    atol_ pk' = 0.10001 ∧
    (0.1 <? atol_ pk') = true ∧ (atol_ pk' <? 0.1001) = true.
Proof.
  intros Hc Ha Ht Hwc Hlen. eexists _, (enorm_kernel pk).
  split; [now apply (enorm_eq u du peers pk wc)|].
  destruct (enorm_kernel_tolerances pk Hc) as (-> & _).
  rewrite Ha, Ht. repeat split; reflexivity.
Qed.

(** C10.  [enorm] has no step-size parameter: h is the time of the new
    snapshot minus the time of the old one.  When the two report equal
    times, h is a zero, or NaN when the common time is infinite; every
    per-cell error is then a zero or NaN: a zero exactly when h is a zero,
    the cell of du is finite and the denominator atol + rtol*|wc| is a
    number other than zero, NaN in every other case (0 times infinity, 0/0,
    a NaN operand).  [std::max] discards the NaNs, and the rank's result is
    exactly 0 whatever du holds. *)
Theorem enorm_equal_times (u du : TreeVector) (peers : list double)
    (pk : Richards) (wc : CompositeVector) :
  let h := time (S_next_ pk) - time (S_inter_ pk) in
  let atol := if continuation_to_ss_ pk
              then atol0_ pk + 1e5 * atol0_ pk / (1.0 + time (S_next_ pk))
              else atol_ pk in
  let rtol := if continuation_to_ss_ pk
              then rtol0_ pk + 1e5 * rtol0_ pk / (1.0 + time (S_next_ pk))
              else rtol_ pk in
  let err d w := abs (h * d) / (atol + rtol * abs w) in
  let updated := (HasFieldChanged "water_content" (S_next_ pk) (name_ pk)).2 in
  updated !! "water_content" = Some wc →
  length (cell (data du)) ≤ length (cell wc) →
  (time (S_next_ pk) =? time (S_inter_ pk)) = true →
  ((h =? 0) = true ∨ (h =? h) = false) ∧
  ((h =? 0) = true ↔ (abs (time (S_next_ pk)) <? infinity) = true) ∧
  (∀ d w, (err d w =? 0) = true ∨ (err d w =? err d w) = false) ∧
  (∀ d w, (err d w =? 0) = true ↔
          (h =? 0) = true ∧ (abs d <? infinity) = true ∧
          (atol + rtol * abs w =? atol + rtol * abs w) = true ∧
          (atol + rtol * abs w =? 0) = false) ∧
  ∃ pk' : Richards,
    enorm u du [] pk = Ok (0, pk') ∧
    enorm u du peers pk = Ok (foldl std_max 0 peers, pk') ∧
    fields (S_next_ pk') = updated.
Proof.
  intros h atol rtol err updated Hwc Hlen Ht.
  destruct (enorm_kernel_reads pk) as (Hf & Ha & Hr).
  assert (Hwc' : GetFieldData "water_content" (S_next_ (enorm_kernel pk)) = Ok wc).
  { unfold GetFieldData. rewrite Hf. fold updated. now rewrite Hwc. }
  assert (Hh : F64.znan h) by now apply F64Facts.znan_sub_eq.
  assert (Herr : ∀ d w, F64.znan (err d w)).
  { intros d w. apply F64Facts.znan_div, F64Facts.znan_abs, F64Facts.znan_mul_l, Hh. }
  assert (E : foldl std_max 0
                (cell_errors (atol_ (enorm_kernel pk)) (rtol_ (enorm_kernel pk))
                   (step_size pk) (data du) wc) = 0).
  { apply foldl_std_max_znan; [reflexivity|].
    apply Forall_forall. intros e He.
    apply list_elem_of_lookup in He as [c Hc].
    apply cell_errors_lookup in Hc as (d & w & _ & _ & ->).
    unfold cell_error. rewrite Ha, Hr. apply Herr. }
  split; [now apply F64Facts.znan_spec|].
  split; [exact (F64Edge.sub_eq_zero _ _ Ht)|].
  split; [intros d w; apply F64Facts.znan_spec, Herr|].
  split; [intros d w; exact (F64Edge.cell_term_zero h d _ Hh)|].
  exists (enorm_kernel pk).
  rewrite !(enorm_eq u du _ pk wc) by done. unfold MPI_Allreduce_MAX.
  now rewrite E.
Qed.

End EnormClaims.

Section EnormWitnesses.
Import Idle.

(** C1, the counterexample: between snapshots at times 2 and 3, with
    atol = -1 and rtol = 0, the one cell's value is |1 * 1e-3| / (-1 + 0 * 10),
    the double -0.001; the maximum over the cells is that value, and [enorm]
    returns 0, the value its running maximum starts from.  It returns 0 as
    well for a correction without cells. *)
Lemma enorm_not_cell_maximum :
  abs ((3 - 2) * 1e-3) / (-1 + 0 * abs 10.0) = -0.001 ∧
  cell_error (atol_ Scenario.pk_negative) (rtol_ Scenario.pk_negative)
    (time (S_next_ Scenario.pk_negative) - time (S_inter_ Scenario.pk_negative))
    1e-3 10.0 = -0.001 ∧
  norm_of (enorm Scenario.u_norm Scenario.du_norm [] Scenario.pk_negative) = Some 0 ∧
  (-0.001 <? 0) = true ∧
  norm_of (enorm Scenario.u_norm Scenario.du_norm [] Scenario.pk_negative) ≠
    Some (-0.001) ∧
  norm_of (enorm Scenario.u_norm {| data := vec [] |} [] Scenario.pk_norm) = Some 0.
Proof.
  split; [vm_compute; reflexivity|]. split; [vm_compute; reflexivity|].
  split; [vm_compute; reflexivity|]. split; [vm_compute; reflexivity|].
  split; [|vm_compute; reflexivity].
  vm_compute. intros [= E].
Qed.

Lemma enorm_continuation_tolerances_witness :
  ∃ r pk',
    enorm Scenario.u_norm Scenario.du_norm [] Scenario.pk_continuation =
      Ok (r, pk') ∧
    atol_ pk' = 0.10001 ∧ rtol_ pk' = 1.0001.
Proof.
  destruct (enorm_continuation_tolerances Scenario.u_norm Scenario.du_norm []
              Scenario.pk_continuation (vec [10.0]))
    as (r & pk' & E & Ha & Hr & _); [reflexivity | reflexivity | simpl; lia |].
  exists r, pk'. split; [exact E|]. split; [exact Ha | exact Hr].
Defined.

(** C3, the counterexample: in the scenario (atol0 = 1e-5, t_new = 9) the
    tolerance after the call is 0.10001, not atol0 + K/(1+t_new), which is
    10000.00001. *)
Lemma enorm_continuation_not_absolute :
  tolerances_after
    (enorm Scenario.u_norm Scenario.du_norm [] Scenario.pk_continuation) =
    Some (0.10001, 1.0001) ∧
  atol0_ Scenario.pk_continuation +
    1e5 / (1.0 + time (S_next_ Scenario.pk_continuation)) = 10000.00001 ∧
  fst <$> tolerances_after
            (enorm Scenario.u_norm Scenario.du_norm [] Scenario.pk_continuation) ≠
  Some (atol0_ Scenario.pk_continuation +
        1e5 / (1.0 + time (S_next_ Scenario.pk_continuation))).
Proof.
  split; [vm_compute; reflexivity|]. split; [vm_compute; reflexivity|].
  vm_compute. intros [= E].
Qed.

Lemma enorm_continuation_scenario_witness :
  ∃ r pk',
    enorm Scenario.u_norm Scenario.du_norm [] Scenario.pk_continuation =
      Ok (r, pk') ∧
    atol_ pk' = 0.10001.
Proof.
  destruct (enorm_continuation_scenario Scenario.u_norm Scenario.du_norm []
              Scenario.pk_continuation (vec [10.0]))
    as (r & pk' & E & _ & Ha & _);
    [reflexivity | reflexivity | reflexivity | reflexivity | simpl; lia |].
  exists r, pk'. split; [exact E | exact Ha].
Defined.

(** C4, the counterexample: in the scenario the recomputed tolerance is the
    double 1e-5 + 1e5*1e-5/10, and that is below 1, nowhere near 100.00001. *)
Lemma enorm_continuation_not_100 :
  fst <$> tolerances_after
            (enorm Scenario.u_norm Scenario.du_norm [] Scenario.pk_continuation) =
    Some (1e-5 + 1e5 * 1e-5 / 10) ∧
  1e-5 + 1e5 * 1e-5 / 10 = 0.10001 ∧
  (1e-5 + 1e5 * 1e-5 / 10 <? 1) = true ∧
  (99 <? 100.00001 - (1e-5 + 1e5 * 1e-5 / 10)) = true.
Proof. repeat split; vm_compute; reflexivity. Qed.

(** C10, the counterexample: both snapshots at time 5, so h = 0, and a
    correction that is infinite in its one cell: the per-cell error is
    |0 * infinity| / (1e-5 + 1e-4 * 10), which is NaN and not 0; [enorm]
    returns 0 all the same. *)
Lemma enorm_equal_times_nan_term :
  (time (S_next_ Scenario.pk_still) =? time (S_inter_ Scenario.pk_still)) = true ∧
  (5 - 5 =? 0) = true ∧
  abs ((5 - 5) * infinity) / (1e-5 + 1e-4 * abs 10.0) = nan ∧
  cell_error (atol_ Scenario.pk_still) (rtol_ Scenario.pk_still)
    (time (S_next_ Scenario.pk_still) - time (S_inter_ Scenario.pk_still))
    infinity 10.0 = nan ∧
  (nan =? 0) = false ∧ nan ≠ 0 ∧
  norm_of (enorm Scenario.u_norm {| data := vec [infinity] |} [] Scenario.pk_still)
    = Some 0.
Proof.
  split; [vm_compute; reflexivity|]. split; [vm_compute; reflexivity|].
  split; [vm_compute; reflexivity|]. split; [vm_compute; reflexivity|].
  split; [vm_compute; reflexivity|]. split; [|vm_compute; reflexivity].
  intros E. apply (f_equal (λ x, x =? x)) in E. vm_compute in E. discriminate E.
Qed.

Lemma enorm_equal_times_witness :
  norm_of (enorm Scenario.u_norm Scenario.du_norm [] Scenario.pk_still) = Some 0 ∧
  (abs ((5 - 5) * 1e-3) / (1e-5 + 1e-4 * abs 10.0) =? 0) = true.
Proof.
  destruct (enorm_equal_times Scenario.u_norm Scenario.du_norm []
              Scenario.pk_still (vec [10.0]))
    as (_ & _ & _ & Hz & pk' & E & _ & _);
    [reflexivity | simpl; lia | reflexivity |].
  split.
  - now rewrite E.
  - apply (Hz 1e-3 10.0). repeat split; reflexivity.
Defined.

End EnormWitnesses.

Section EnormEvaluatingWitness.
Import Idle Evaluating.

Lemma enorm_is_cell_maximum_witness :
  GetFieldData "water_content" (S_next_ Scenario.pk_stale) = Ok (vec [5.0]) ∧
  norm_of (enorm Scenario.u_norm Scenario.du_norm [] Scenario.pk_stale) =
    Some (1e-3 / 1.01e-3).
Proof.
  split; [reflexivity|].
  destruct (enorm_is_cell_maximum Scenario.u_norm Scenario.du_norm []
              Scenario.pk_stale (vec [10.0]))
    as (r & pk' & E & _ & _ & _ & _ & _ & _ & Hs);
    [vm_compute; reflexivity | simpl; lia |].
  rewrite E. cbn [norm_of]. f_equal.
  apply Hs; reflexivity.
Defined.

End EnormEvaluatingWitness.

(** * The residual *)

Section FunClaims.
Context `{ExternalTypes} `{!Collaborators}.

Lemma PutScalar_shape x v v' :
  length (cell v) = length (cell v') → length (face v) = length (face v') →
  PutScalar x v = PutScalar x v'.
Proof.
  intros Hc Hf. unfold PutScalar.
  rewrite !(const_fmap (λ _, x) _ x) by done. now rewrite Hc, Hf.
Qed.

Lemma fun_eq t_old t_new u_old u_new g pk :
  fun_ t_old t_new u_old u_new g pk =
  if (time (S_inter_ pk) =? t_old) && (time (S_next_ pk) =? t_new) then
    let dr := ApplyDiffusion_ (fun_kernel t_new u_new pk) (PutScalar 0 (data g)) in
    let ar := AddAccumulation_ dr.1 dr.2 in
    Ok ({| data := ar.2 |}, ar.1)
  else Fail AssertionFailed.
Proof.
  unfold fun_, fun_kernel. cbn.
  destruct (time (S_inter_ pk) =? t_old); cbn; [|done].
  destruct (time (S_next_ pk) =? t_new); cbn; [|done].
  destruct (ApplyDiffusion_ _ _) as [pk1 r1]. cbn.
  destruct (AddAccumulation_ _ _) as [pk2 r2]. done.
Qed.

(** C6.  [fun] fails with a fatal assertion exactly when the
    time of the old snapshot differs from t_old or the time of the new
    snapshot differs from t_new ([==] on doubles, so a NaN time always
    fails).  The step h = t_new - t_old is computed and not checked: with
    matching time stamps the call goes through and returns a residual
    whatever the sign of h. *)
Theorem fun_asserts_time_stamps (t_old t_new : double)
    (u_old u_new g : TreeVector) (pk : Richards) :
  (fun_ t_old t_new u_old u_new g pk = Fail AssertionFailed ↔
   (time (S_inter_ pk) =? t_old) = false ∨
   (time (S_next_ pk) =? t_new) = false) ∧
  ((time (S_inter_ pk) =? t_old) = true →
   (time (S_next_ pk) =? t_new) = true →
   ∃ g' pk', fun_ t_old t_new u_old u_new g pk = Ok (g', pk')).
Proof.
  rewrite fun_eq.
  destruct (time (S_inter_ pk) =? t_old), (time (S_next_ pk) =? t_new); cbn;
    (split; [split; [try discriminate; auto | intros [?|?]; try discriminate; done]
            | try discriminate; eauto]).
Qed.

(** C7.  On a call whose assertions hold, [fun] sets every entry of the
    residual to 0, hands that to the diffusion term and the outcome of that
    to the accumulation term, and returns what comes out; so two calls that
    differ only in the values the residual vector held on entry (not in its
    shape) end alike. *)
Theorem fun_residual_from_zero (t_old t_new : double)
    (u_old u_new g g' : TreeVector) (pk : Richards) :
  length (cell (data g)) = length (cell (data g')) →
  length (face (data g)) = length (face (data g')) →
  (time (S_inter_ pk) =? t_old) = true →
  (time (S_next_ pk) =? t_new) = true →
  let zeroed := PutScalar 0 (data g) in
  let dr := ApplyDiffusion_ (fun_kernel t_new u_new pk) zeroed in
  let ar := AddAccumulation_ dr.1 dr.2 in
  (∀ x, x ∈ cell zeroed ∨ x ∈ face zeroed → x = 0) ∧
  length (cell zeroed) = length (cell (data g)) ∧
  length (face zeroed) = length (face (data g)) ∧
  fun_ t_old t_new u_old u_new g pk = Ok ({| data := ar.2 |}, ar.1) ∧
  fun_ t_old t_new u_old u_new g' pk = fun_ t_old t_new u_old u_new g pk.
Proof.
  intros Hc Hf Ho Hn zeroed dr ar.
  split; [|split; [|split; [|split]]].
  - intros x [Hx|Hx]; apply list_elem_of_fmap in Hx as (? & -> & _); done.
  - apply length_fmap.
  - apply length_fmap.
  - rewrite fun_eq, Ho, Hn. done.
  - rewrite !fun_eq. now rewrite (PutScalar_shape 0 (data g') (data g)).
Qed.

End FunClaims.

Section FunWitnesses.
Import Idle.

(** C6, the counterexample: two calls with matching time stamps, one with
    h = 0 and one with h < 0; neither fails. *)
Lemma fun_accepts_nonpositive_step :
  (1 - 1 =? 0) = true ∧
  (∃ g' pk', fun_ 1 1 Scenario.u_norm Scenario.u_norm Scenario.du_norm
               (kernel 1 1 10.0 1e-5 1e-4 false) = Ok (g', pk')) ∧
  (1 - 2 <? 0) = true ∧
  (∃ g' pk', fun_ 2 1 Scenario.u_norm Scenario.u_norm Scenario.du_norm
               (kernel 2 1 10.0 1e-5 1e-4 false) = Ok (g', pk')).
Proof. repeat split; eexists _, _; reflexivity. Qed.

Lemma fun_asserts_time_stamps_witness :
  fun_ 0 1 Scenario.u_norm Scenario.u_norm Scenario.du_norm
    (kernel 0 2 10.0 1e-5 1e-4 false) = Fail AssertionFailed.
Proof.
  apply (fun_asserts_time_stamps 0 1 Scenario.u_norm Scenario.u_norm
           Scenario.du_norm (kernel 0 2 10.0 1e-5 1e-4 false)).
  right. reflexivity.
Defined.

End FunWitnesses.

Section FunDemoWitness.
Import Idle Demo.

Lemma fun_residual_from_zero_witness :
  residual_of
    (fun_ 0 1 Scenario.u_norm Scenario.u_norm
       {| data := {| cell := [3]; face := [4; 5] |} |}
       (kernel 0 1 10.0 1e-5 1e-4 false)) =
  residual_of
    (fun_ 0 1 Scenario.u_norm Scenario.u_norm Scenario.du_norm
       (kernel 0 1 10.0 1e-5 1e-4 false)) ∧
  residual_of
    (fun_ 0 1 Scenario.u_norm Scenario.u_norm Scenario.du_norm
       (kernel 0 1 10.0 1e-5 1e-4 false)) =
  Some {| cell := [1.5]; face := [0; 0] |}.
Proof.
  destruct (fun_residual_from_zero 0 1 Scenario.u_norm Scenario.u_norm
              Scenario.du_norm {| data := {| cell := [3]; face := [4; 5] |} |}
              (kernel 0 1 10.0 1e-5 1e-4 false))
    as (_ & _ & _ & E & E'); [reflexivity..|].
  rewrite E', E. split; reflexivity.
Defined.

End FunDemoWitness.

(** * The preconditioner update *)

Section UpdatePreconFacts.
Context `{ExternalTypes} `{!Collaborators}.

Lemma accumulate_loop h dwc_dp pres Acc Fc n :
  n ≤ length (cell dwc_dp) → n ≤ length Acc → n ≤ length Fc →
  n ≤ length (cell pres) →
  ∃ Acc' Fc',
    for_loop n (accumulate_cell h dwc_dp pres) (Acc, Fc) = Ok (Acc', Fc') ∧
    length Acc' = length Acc ∧ length Fc' = length Fc ∧
    (∀ c, c < n →
       ∃ d a p f,
         cell dwc_dp !! c = Some d ∧ Acc !! c = Some a ∧
         cell pres !! c = Some p ∧ Fc !! c = Some f ∧
         Acc' !! c = Some (a + d / h) ∧ Fc' !! c = Some (f + p * d / h)) ∧
    (∀ c, n ≤ c → Acc' !! c = Acc !! c ∧ Fc' !! c = Fc !! c).
Proof.
  induction n as [|n IH]; intros Hd Ha Hf Hp.
  { exists Acc, Fc. repeat split; intros; lia. }
  destruct IH as (Acc1 & Fc1 & E & La & Lf & Hlow & Hhigh); [lia..|].
  destruct (lookup_lt_is_Some_2 (cell dwc_dp) n) as [d Ed]; [lia|].
  destruct (lookup_lt_is_Some_2 Acc n) as [a Ea]; [lia|].
  destruct (lookup_lt_is_Some_2 (cell pres) n) as [p Ep]; [lia|].
  destruct (lookup_lt_is_Some_2 Fc n) as [f Ef]; [lia|].
  destruct (Hhigh n) as [Ea1 Ef1]; [lia|].
  exists (<[n := a + d / h]> Acc1), (<[n := f + p * d / h]> Fc1).
  split; [|split; [|split; [|split]]].
  - rewrite for_loop_S, E. cbn. unfold accumulate_cell, at_cell. cbn.
    rewrite Ed. cbn [from_option mbind Result_bind].
    rewrite Ea1, Ea. cbn [from_option mbind Result_bind].
    rewrite Ep. cbn [from_option mbind Result_bind].
    rewrite Ef1, Ef. done.
  - now rewrite length_insert.
  - now rewrite length_insert.
  - intros c Hc. destruct (decide (c = n)) as [->|Hne].
    + exists d, a, p, f. rewrite !list_lookup_insert_eq by lia. done.
    + destruct (Hlow c) as (d' & a' & p' & f' & ? & ? & ? & ? & ? & ?); [lia|].
      exists d', a', p', f'. rewrite !list_lookup_insert_ne by done. done.
  - intros c Hc. rewrite !list_lookup_insert_ne by lia. apply Hhigh. lia.
Qed.

Lemma propagate_holds_primary up pk :
  holds_primary (key_ pk) (data up) (propagate up pk).
Proof. split; [done|]. cbn. apply lookup_insert_eq. Qed.

Lemma update_boundary_conditions_holds_primary key v t pk :
  primary_variable_untouched →
  holds_primary key v pk → holds_primary key v (update_boundary_conditions t pk).
Proof.
  intros (_ & Hbc & _) [Hk Hv]. unfold update_boundary_conditions. cbv zeta.
  match goal with
  | |- holds_primary _ _ (UpdateBoundaryConditions_ ?q) =>
      destruct (Hbc q) as [Hk' Hv'];
      change (key_ q) with (key_ pk) in Hk', Hv';
      change (S_next_ q) with (S_next_ pk) in Hv'
  end.
  split; [congruence|]. rewrite Hk in Hv'. congruence.
Qed.

Lemma UpdatePermeabilityData_holds_primary key v pk :
  primary_variable_untouched →
  holds_primary key v pk → holds_primary key v (UpdatePermeabilityData_ pk).
Proof.
  intros (Hperm & _ & _) [Hk Hv]. destruct (Hperm pk) as [Hk' Hv'].
  split; [congruence|]. rewrite Hk in Hv'. congruence.
Qed.

Lemma request_accumulation_derivative_holds_primary key v pk :
  primary_variable_untouched →
  holds_primary key v pk →
  holds_primary key v (request_accumulation_derivative pk).
Proof.
  intros (_ & _ & Hev) [Hk Hv]. split; [done|]. cbn.
  rewrite Hk, Hev. done.
Qed.

Lemma update_precon_assemble_fields t up pk pk1 dwc_dp pres :
  update_precon_assemble t up pk = Ok (pk1, dwc_dp, pres) →
  (time (S_next_ pk) =? t) = true ∧
  GetFieldData ("dwater_content_d" +:+ key_ pk1) (S_next_ pk1) = Ok dwc_dp ∧
  GetFieldData (key_ pk1) (S_next_ pk1) = Ok pres ∧
  (primary_variable_untouched → key_ pk1 = key_ pk ∧ pres = data up).
Proof.
  unfold update_precon_assemble.
  destruct (time (S_next_ pk) =? t); cbn [ASSERT mbind Result_bind]; [|done].
  set (pk_a := UpdatePermeabilityData_ _).
  set (pk_b := update_boundary_conditions _ _).
  destruct (GetFieldData "numerical_rel_perm" _) as [rp|];
    cbn [mbind Result_bind]; [|done].
  destruct (GetFieldData "mass_density_liquid" _) as [rho|];
    cbn [mbind Result_bind]; [|done].
  destruct (GetConstantVectorData "gravity" _) as [gv|];
    cbn [mbind Result_bind]; [|done].
  set (pk_c := request_accumulation_derivative _).
  destruct (GetFieldData ("dwater_content_d" +:+ _) _) as [dw|] eqn:Edw;
    cbn [mbind Result_bind]; [|done].
  destruct (GetFieldData (key_ pk_c) _) as [pr|] eqn:Epr;
    cbn [mbind Result_bind]; [|done].
  intros [= <- <- <-]. split; [done|]. split; [done|]. split; [done|].
  intros Hun.
  assert (Hc : holds_primary (key_ pk) (data up) pk_c).
  { apply request_accumulation_derivative_holds_primary; [done|].
    assert (Hb : holds_primary (key_ pk) (data up) pk_b).
    { apply update_boundary_conditions_holds_primary; [done|].
      apply UpdatePermeabilityData_holds_primary; [done|].
      apply propagate_holds_primary. }
    destruct Hb as [Hk Hv]. split; [exact Hk | exact Hv]. }
  destruct Hc as [Hk Hv]. split; [done|].
  unfold GetFieldData in Epr. rewrite Hk, Hv in Epr. cbn in Epr. congruence.
Qed.

Lemma update_precon_assemble_requested t up pk pk1 dwc_dp pres :
  update_precon_assemble t up pk = Ok (pk1, dwc_dp, pres) →
  ∃ pk0, pk1 = request_accumulation_derivative pk0.
Proof.
  unfold update_precon_assemble.
  destruct (time (S_next_ pk) =? t); cbn [ASSERT mbind Result_bind]; [|done].
  destruct (GetFieldData "numerical_rel_perm" _) as [rp|];
    cbn [mbind Result_bind]; [|done].
  destruct (GetFieldData "mass_density_liquid" _) as [rho|];
    cbn [mbind Result_bind]; [|done].
  destruct (GetConstantVectorData "gravity" _) as [gv|];
    cbn [mbind Result_bind]; [|done].
  destruct (GetFieldData ("dwater_content_d" +:+ _) _) as [dw|];
    cbn [mbind Result_bind]; [|done].
  destruct (GetFieldData (key_ _) _) as [pr|];
    cbn [mbind Result_bind]; [|done].
  intros [= <- _ _]. eauto.
Qed.

Lemma accumulate_cell_error h dwc_dp pres AF c e :
  accumulate_cell h dwc_dp pres AF c = Fail e → e = OutOfRange.
Proof.
  unfold accumulate_cell, at_cell.
  destruct (cell dwc_dp !! c); cbn; [|congruence].
  destruct (AF.1 !! c); cbn; [|congruence].
  destruct (cell pres !! c); cbn; [|congruence].
  destruct (AF.2 !! c); cbn; [discriminate|congruence].
Qed.

(** The loop indexes the operator's two vectors and the pressure with every
    cell index of the derivative: it reads past the end of one that is
    shorter. *)
Lemma accumulate_loop_short h dwc_dp pres Acc Fc n :
  n ≤ length (cell dwc_dp) →
  ¬ (n ≤ length Acc ∧ n ≤ length Fc ∧ n ≤ length (cell pres)) →
  for_loop n (accumulate_cell h dwc_dp pres) (Acc, Fc) = Fail OutOfRange.
Proof.
  intros Hd Hshort.
  set (m := length Acc `min` (length Fc `min` length (cell pres))).
  assert (Hm : m < n) by lia.
  apply (for_loop_fail _ _ _ (S m)); [lia|].
  destruct (accumulate_loop h dwc_dp pres Acc Fc m)
    as (Acc' & Fc' & E & La & Lf & _ & _); [lia..|].
  rewrite for_loop_S, E. cbn [mbind Result_bind].
  destruct (accumulate_cell h dwc_dp pres (Acc', Fc') m) as [[A' F']|e] eqn:Ec.
  - exfalso. revert Ec. unfold accumulate_cell, at_cell. cbn [fst snd].
    destruct (cell dwc_dp !! m); cbn; [|discriminate].
    destruct (Acc' !! m) eqn:Ea; cbn; [|discriminate].
    destruct (cell pres !! m) eqn:Ep; cbn; [|discriminate].
    destruct (Fc' !! m) eqn:Ef; cbn; [|discriminate].
    apply lookup_lt_Some in Ea, Ep, Ef. lia.
  - now rewrite (accumulate_cell_error _ _ _ _ _ _ Ec).
Qed.

Lemma update_cell_block_Ok h dwc_dp pres P P' :
  update_cell_block h dwc_dp pres P = Ok P' →
  length (cell dwc_dp) ≤ length (Acc_cells P) ∧
  length (cell dwc_dp) ≤ length (Fc_cells P) ∧
  length (cell dwc_dp) ≤ length (cell pres).
Proof.
  intros E.
  destruct (decide (length (cell dwc_dp) ≤ length (Acc_cells P) ∧
                    length (cell dwc_dp) ≤ length (Fc_cells P) ∧
                    length (cell dwc_dp) ≤ length (cell pres))) as [?|Hn]; [done|].
  unfold update_cell_block in E.
  rewrite accumulate_loop_short in E by done. discriminate E.
Qed.

(** What the cell loop leaves in the operator. *)
Lemma update_cell_block_cells h dwc_dp pres P P' :
  update_cell_block h dwc_dp pres P = Ok P' →
  length (Acc_cells P') = length (Acc_cells P) ∧
  length (Fc_cells P') = length (Fc_cells P) ∧
  blocks P' = blocks P ∧
  (∀ c, c < length (cell dwc_dp) →
     ∃ d a p f,
       cell dwc_dp !! c = Some d ∧ Acc_cells P !! c = Some a ∧
       cell pres !! c = Some p ∧ Fc_cells P !! c = Some f ∧
       Acc_cells P' !! c = Some (a + d / h) ∧
       Fc_cells P' !! c = Some (f + p * d / h)) ∧
  (∀ c, length (cell dwc_dp) ≤ c →
     Acc_cells P' !! c = Acc_cells P !! c ∧ Fc_cells P' !! c = Fc_cells P !! c).
Proof.
  intros E. destruct (update_cell_block_Ok _ _ _ _ _ E) as (La & Lf & Lp).
  destruct (accumulate_loop h dwc_dp pres (Acc_cells P) (Fc_cells P)
              (length (cell dwc_dp)))
    as (Acc' & Fc' & EL & La' & Lf' & Hlow & Hhigh); [lia..|].
  unfold update_cell_block in E. rewrite EL in E. injection E as <-. cbn.
  repeat split; try done; apply Hhigh; done.
Qed.


(** C5.  [update_precon] adds, for every cell c, dwc_dp[c]/h to Acc[c] and
    p[c]*dwc_dp[c]/h to Fc[c], on top of what its assembly steps have left
    there.  dwc_dp is the field "dwater_content_d<key>" and p the field
    "<key>" of the new state, both read after the water-content evaluator has
    been asked for the derivative; p is the iterate handed to the call when
    the collaborators in between leave the primary variable alone. *)
Theorem update_precon_adds_accumulation (t : double) (up : TreeVector)
    (h : double) (pk pk1 : Richards) (dwc_dp pres : CompositeVector) :
  update_precon_assemble t up pk = Ok (pk1, dwc_dp, pres) →
  length (cell dwc_dp) ≤ length (Acc_cells (preconditioner_ pk1)) →
  length (cell dwc_dp) ≤ length (Fc_cells (preconditioner_ pk1)) →
  length (cell dwc_dp) ≤ length (cell pres) →
  ∃ P,
    update_cell_block h dwc_dp pres (preconditioner_ pk1) = Ok P ∧
    update_precon t up h pk =
      Ok (update_precon_finish (with_preconditioner P pk1)) ∧
    (∀ c d, cell dwc_dp !! c = Some d →
       ∃ a f p,
         Acc_cells (preconditioner_ pk1) !! c = Some a ∧
         Fc_cells (preconditioner_ pk1) !! c = Some f ∧
         cell pres !! c = Some p ∧
         Acc_cells P !! c = Some (a + d / h) ∧
         Fc_cells P !! c = Some (f + p * d / h)) ∧
    (∃ pk0,
       fields (S_next_ pk1) =
       (HasFieldDerivativeChanged "water_content" (S_next_ pk0)
          (name_ pk0) (key_ pk0)).2) ∧
    GetFieldData ("dwater_content_d" +:+ key_ pk1) (S_next_ pk1) = Ok dwc_dp ∧
    GetFieldData (key_ pk1) (S_next_ pk1) = Ok pres ∧
    (primary_variable_untouched → pres = data up).
Proof.
  intros Hasm La Lf Lp.
  destruct (accumulate_loop h dwc_dp pres (Acc_cells (preconditioner_ pk1))
              (Fc_cells (preconditioner_ pk1)) (length (cell dwc_dp)))
    as (Acc' & Fc' & E & _ & _ & Hlow & _); [lia..|].
  destruct (update_precon_assemble_fields _ _ _ _ _ _ Hasm)
    as (_ & Hdw & Hpr & Hup).
  destruct (update_precon_assemble_requested _ _ _ _ _ _ Hasm) as [pk0 ->].
  exists (with_cells Acc' Fc' (preconditioner_ (request_accumulation_derivative pk0))).
  assert (Eblock : update_cell_block h dwc_dp pres
                     (preconditioner_ (request_accumulation_derivative pk0)) =
                   Ok (with_cells Acc' Fc'
                         (preconditioner_ (request_accumulation_derivative pk0)))).
  { unfold update_cell_block. now rewrite E. }
  split; [exact Eblock|].
  split; [unfold update_precon; rewrite Hasm; cbn [mbind Result_bind];
          now rewrite Eblock|].
  split.
  { intros c d Hd. destruct (Hlow c) as (d' & a & p' & f & ? & ? & ? & ? & ? & ?).
    - apply lookup_lt_Some in Hd. lia.
    - exists a, f, p'. replace d with d' by congruence. done. }
  split; [exists pk0; done|].
  split; [done|]. split; [done|].
  intros Hun. now apply Hup.
Qed.


End UpdatePreconFacts.

Section UpdatePreconWitnesses.
Import Idle.

Lemma update_precon_adds_accumulation_witness :
  cells_after (update_precon 1 Scenario.up_demo 0.5 (kernel 0 1 10.0 1e-5 1e-4 false)) =
  Some ([2], [202650]).
Proof.
  destruct (update_precon_adds_accumulation 1 Scenario.up_demo 0.5
              (kernel 0 1 10.0 1e-5 1e-4 false)
              (request_accumulation_derivative
                 (propagate Scenario.up_demo (kernel 0 1 10.0 1e-5 1e-4 false)))
              (vec [1]) (vec [101325]))
    as (P & EP & E & _); [vm_compute; reflexivity | simpl; lia..|].
  rewrite E. vm_compute in EP. injection EP as <-. vm_compute. reflexivity.
Defined.

End UpdatePreconWitnesses.

Section UpdatePreconDemoWitness.
Import Idle Demo.


End UpdatePreconDemoWitness.

(** * The constant equation of state *)

Section EOSConstantClaims.
Import EOSConstant.

(** C9.  [Density] returns rho_/M_ whatever T and p are, and [DDensityDT] and
    [DDensityDp] return 0.  The three are functions of the object's two
    members and their arguments alone; nothing is written.  The derivatives
    are those of the constant density: with a finite density, the centred
    difference quotient of [Density] in T, and in p, over any step e whose
    double 2e is a nonzero number is a zero, as the derivative says. *)
Theorem Density_constant (eos : t) (T p T' p' e : double) :
  Density eos T p = rho_ eos / M_ eos ∧
  Density eos T' p' = Density eos T p ∧
  DDensityDT eos T p = 0 ∧
  DDensityDp eos T p = 0 ∧
  (F64.finite (Density eos T p) →
   (2 * e =? 2 * e) = true → (2 * e =? 0) = false →
   ((Density eos (T + e) p - Density eos (T - e) p) / (2 * e)
      =? DDensityDT eos T p) = true ∧
   ((Density eos T (p + e) - Density eos T (p - e)) / (2 * e)
      =? DDensityDp eos T p) = true).
Proof.
  repeat split;
    apply F64Facts.div_zero_l; try done;
    apply F64Facts.eqb_zero; exists false; now apply F64Facts.sub_diag.
Qed.

Lemma Density_constant_witness :
  Density Scenario.water 293.15 101325 = 1000.0 / (18.0153 * 1e-3) ∧
  Density Scenario.water 373.15 2e5 = Density Scenario.water 293.15 101325 ∧
  ((Density Scenario.water (293.15 + 0.5) 101325 - Density Scenario.water (293.15 - 0.5) 101325)
     / (2 * 0.5) =? DDensityDT Scenario.water 293.15 101325) = true.
Proof.
  destruct (Density_constant Scenario.water 293.15 101325 373.15 2e5 0.5)
    as (E1 & E2 & _ & _ & E3).
  split; [exact E1|]. split; [exact E2|].
  apply E3; reflexivity.
Defined.

End EOSConstantClaims.

(** * The error norm is monotone *)

Section EnormMonotone.
Context `{ExternalTypes} `{!Collaborators}.

Lemma SFabs_idem x : SFabs (SFabs x) = SFabs x.
Proof. now destruct x. Qed.

(** One cell's error does not decrease when |du| grows. *)
Lemma cell_error_mono atol rtol h d1 d2 w :
  (abs d1 <=? abs d2) = true →
  dominated (cell_error atol rtol h d1 w) (cell_error atol rtol h d2 w).
Proof.
  intros Hd. unfold dominated, cell_error.
  rewrite FloatAxioms.ltb_spec, !FloatAxioms.leb_spec, F64Facts.Prim2SF_zero in *.
  rewrite !div_spec. apply RoundingFacts.SFdiv_mono.
  - apply Prim2SF_valid.
  - apply Prim2SF_valid.
  - rewrite abs_spec. apply SFabs_idem.
  - rewrite abs_spec. apply SFabs_idem.
  - rewrite !abs_spec, !mul_spec in *.
    apply RoundingFacts.SFmul_abs_mono; try apply Prim2SF_valid. exact Hd.
Qed.

Lemma foldl_std_max_mono l1 l2 :
  Forall2 dominated l1 l2 →
  ∀ a1 a2, (0 <=? a1) = true → (a1 <=? a2) = true →
           (foldl std_max a1 l1 <=? foldl std_max a2 l2) = true.
Proof.
  induction 1 as [|t1 t2 l1 l2 Ht _ IH]; intros a1 a2 Hpos Ha; cbn; [done|].
  assert (N1 : (a1 =? a1) = true) by (eapply F64Facts.leb_number_l, Ha).
  assert (N2 : (a2 =? a2) = true) by (eapply F64Facts.leb_number_r, Ha).
  apply IH.
  - eapply F64Facts.leb_trans; [exact Hpos|]. now apply std_max_ge_l.
  - destruct (std_max_cases a1 t1) as [[-> _]|[-> Hlt]].
    + eapply F64Facts.leb_trans; [exact Ha|]. now apply std_max_ge_l.
    + destruct Ht as [Ht|Ht].
      { pose proof (F64Facts.leb_ltb_trans _ _ _ Hpos Hlt). congruence. }
      eapply F64Facts.leb_trans; [exact Ht|].
      destruct (std_max_cases a2 t2) as [[-> E]|[-> _]].
      * apply F64Facts.ltb_false_leb; [done|eapply F64Facts.leb_number_r, Ht|done].
      * rewrite F64Facts.leb_refl. eapply F64Facts.leb_number_r, Ht.
Qed.

Lemma cell_errors_mono atol rtol h res res' wc :
  Forall2 (λ d d', (abs d <=? abs d') = true) (cell res) (cell res') →
  Forall2 dominated (cell_errors atol rtol h res wc)
                    (cell_errors atol rtol h res' wc).
Proof.
  unfold cell_errors. intros Hf. generalize (cell wc).
  induction Hf as [|d d' ds ds' Hd _ IH]; intros [|w ws']; cbn; try constructor.
  - now apply cell_error_mono.
  - apply IH.
Qed.

Lemma cell_errors_zero atol rtol h res wc :
  Forall (λ d, (d =? 0) = true) (cell res) →
  Forall F64.znan (cell_errors atol rtol h res wc).
Proof.
  unfold cell_errors. intros Hf. generalize (cell wc).
  induction Hf as [|d ds Hd _ IH]; intros [|w ws']; cbn; try constructor.
  - apply F64Facts.znan_div, F64Facts.znan_abs, F64Facts.znan_mul_r, F64Facts.znan_spec. now left.
  - apply IH.
Qed.

Lemma foldl_std_max_not_above l : ∀ a,
  Forall (λ b, (a <? b) = false) l → foldl std_max a l = a.
Proof.
  induction l as [|b l IH]; intros a Hl; cbn; [done|].
  apply Forall_cons in Hl as [Hb Hl]. unfold std_max at 2. rewrite Hb.
  now apply IH.
Qed.

(** C8.  [enorm] returns a number that is not negative (never NaN), for
    every du and whatever the other ranks contribute; it returns exactly 0
    when every cell of du is a zero (and no other rank reports a positive
    value); and it does not decrease when the absolute values of the cells
    of du grow, the kernel (state, water content, tolerances) being the
    same (and the other ranks' values not decreasing). *)
Theorem enorm_nonneg_zero_monotone (u du du' : TreeVector)
    (peers peers' : list double) (pk : Richards) (wc : CompositeVector) :
  GetFieldData "water_content" (S_next_ (enorm_kernel pk)) = Ok wc →
  length (cell (data du)) ≤ length (cell wc) →
  ∃ r : double,
    enorm u du peers pk = Ok (r, enorm_kernel pk) ∧
    (0 <=? r) = true ∧
    (Forall (λ d, (d =? 0) = true) (cell (data du)) →
     Forall (λ b, (0 <? b) = false) peers → r = 0) ∧
    (Forall2 (λ d d', (abs d <=? abs d') = true)
       (cell (data du)) (cell (data du')) →
     Forall2 (λ b b', (b <=? b') = true) peers peers' →
     ∃ r' : double,
       enorm u du' peers' pk = Ok (r', enorm_kernel pk) ∧
       (r <=? r') = true).
Proof.
  intros Hwc Hlen.
  set (errs := λ v, cell_errors (atol_ (enorm_kernel pk)) (rtol_ (enorm_kernel pk))
                      (step_size pk) (data v) wc).
  exists (MPI_Allreduce_MAX (foldl std_max 0 (errs du)) peers).
  assert (Hloc : ∀ v, (0 <=? foldl std_max 0 (errs v)) = true).
  { intros v. now apply foldl_std_max_nonneg. }
  split; [now apply enorm_eq|]. split; [|split].
  - unfold MPI_Allreduce_MAX. apply foldl_std_max_nonneg, Hloc.
  - intros Hz Hp. unfold MPI_Allreduce_MAX.
    rewrite (foldl_std_max_znan (errs du) 0 eq_refl)
      by now apply cell_errors_zero.
    now apply foldl_std_max_not_above.
  - intros Hdu Hpeers.
    exists (MPI_Allreduce_MAX (foldl std_max 0 (errs du')) peers').
    split.
    + apply enorm_eq; [done|].
      apply Forall2_length in Hdu. lia.
    + unfold MPI_Allreduce_MAX. apply foldl_std_max_mono.
      * eapply Forall2_impl; [exact Hpeers|]. intros b b' Hb. now right.
      * apply Hloc.
      * apply foldl_std_max_mono; [now apply cell_errors_mono|done..].
Qed.

End EnormMonotone.

Section EnormMonotoneWitness.
Import Idle.

Lemma enorm_nonneg_zero_monotone_witness :
  ∃ r r' : double,
    norm_of (enorm Scenario.u_norm Scenario.du_norm [] Scenario.pk_norm) = Some r ∧
    norm_of (enorm Scenario.u_norm {| data := vec [-2e-3] |} [] Scenario.pk_norm) =
      Some r' ∧
    (0 <=? r) = true ∧ (r <=? r') = true.
Proof.
  destruct (enorm_nonneg_zero_monotone Scenario.u_norm Scenario.du_norm
              {| data := vec [-2e-3] |} [] [] Scenario.pk_norm (vec [10.0]))
    as (r & E & Hr & _ & Hm); [vm_compute; reflexivity | simpl; lia |].
  destruct Hm as (r' & E' & Hle).
  { repeat constructor. }
  { constructor. }
  exists r, r'. rewrite E, E'. cbn [norm_of]. repeat split; assumption.
Defined.

End EnormMonotoneWitness.

(** * Further properties of the error norm *)

Section EnormOutcomes.
Context `{ExternalTypes} `{!Collaborators}.

Lemma enorm_cell_loop_short atol rtol h res wc x n :
  n ≤ length (cell res) → length (cell wc) < n →
  for_loop n (enorm_cell_step atol rtol h res wc) x = Fail OutOfRange.
Proof.
  intros Hr Hw. apply (for_loop_fail _ _ _ (S (length (cell wc)))); [lia|].
  rewrite for_loop_S, enorm_cell_loop by lia. cbn.
  unfold enorm_cell_step, at_cell.
  destruct (lookup_lt_is_Some_2 (cell res) (length (cell wc))) as [d ->]; [lia|].
  rewrite (lookup_ge_None_2 (cell wc)) by lia. done.
Qed.

Lemma enorm_missing u du peers pk :
  (HasFieldChanged "water_content" (S_next_ pk) (name_ pk)).2
    !! "water_content" = None →
  enorm u du peers pk = Fail (NoSuchField "water_content").
Proof.
  intros E. unfold enorm, enorm_local. fold (enorm_kernel pk).
  unfold GetFieldData. destruct (enorm_kernel_reads pk) as (-> & _).
  now rewrite E.
Qed.

Lemma enorm_short u du peers pk wc :
  (HasFieldChanged "water_content" (S_next_ pk) (name_ pk)).2
    !! "water_content" = Some wc →
  length (cell wc) < length (cell (data du)) →
  enorm u du peers pk = Fail OutOfRange.
Proof.
  intros E Hlen. unfold enorm, enorm_local. fold (enorm_kernel pk).
  unfold GetFieldData. destruct (enorm_kernel_reads pk) as (-> & _).
  rewrite E. cbn [from_option mbind Result_bind].
  now rewrite enorm_cell_loop_short.
Qed.

Lemma enorm_present u du peers pk wc :
  (HasFieldChanged "water_content" (S_next_ pk) (name_ pk)).2
    !! "water_content" = Some wc →
  length (cell (data du)) ≤ length (cell wc) →
  enorm u du peers pk =
  Ok (MPI_Allreduce_MAX
        (foldl std_max 0
           (cell_errors (atol_ (enorm_kernel pk)) (rtol_ (enorm_kernel pk))
              (step_size pk) (data du) wc)) peers,
      enorm_kernel pk).
Proof.
  intros E Hlen. apply enorm_eq; [|done]. unfold GetFieldData.
  destruct (enorm_kernel_reads pk) as (-> & _). now rewrite E.
Qed.

Lemma enorm_Ok_kernel u du peers pk r pk' :
  enorm u du peers pk = Ok (r, pk') → pk' = enorm_kernel pk.
Proof.
  destruct ((HasFieldChanged "water_content" (S_next_ pk) (name_ pk)).2
              !! "water_content") as [wc|] eqn:E.
  - destruct (decide (length (cell (data du)) ≤ length (cell wc))) as [Hl|Hl].
    + rewrite (enorm_present _ _ _ _ wc) by done. congruence.
    + rewrite (enorm_short _ _ _ _ wc) by (done || lia). discriminate.
  - rewrite enorm_missing by done. discriminate.
Qed.

(** Two corrections with as many cells and, against every water content,
    the same running maximum of cell errors get the same answer. *)
Lemma enorm_congr u u' du du' peers pk :
  length (cell (data du)) = length (cell (data du')) →
  (∀ a r h wc,
     foldl std_max 0 (cell_errors a r h (data du) wc) =
     foldl std_max 0 (cell_errors a r h (data du') wc)) →
  enorm u du peers pk = enorm u' du' peers pk.
Proof.
  intros Hlen Hf.
  destruct ((HasFieldChanged "water_content" (S_next_ pk) (name_ pk)).2
              !! "water_content") as [wc|] eqn:E.
  - destruct (decide (length (cell (data du)) ≤ length (cell wc))) as [Hl|Hl].
    + rewrite !(enorm_present _ _ _ _ wc) by (done || lia). now rewrite Hf.
    + rewrite !(enorm_short _ _ _ _ wc) by (done || lia). done.
  - now rewrite !enorm_missing.
Qed.

Lemma foldl_std_max_skip l l' :
  Forall2 (λ e e', e = e' ∨ (F64.znan e ∧ F64.znan e')) l l' →
  ∀ a, (0 <=? a) = true → foldl std_max a l = foldl std_max a l'.
Proof.
  induction 1 as [|e e' l l' [->|[He He']] _ IH]; intros a Ha; cbn; [done| |].
  - apply IH. eapply F64Facts.leb_trans; [exact Ha|].
    apply std_max_ge_l. eapply F64Facts.leb_number_r, Ha.
  - unfold std_max at 2 4.
    rewrite (F64Facts.znan_not_above e a He Ha), (F64Facts.znan_not_above e' a He' Ha).
    now apply IH.
Qed.

Lemma cell_error_znan atol rtol h d w :
  F64.znan d → F64.znan (cell_error atol rtol h d w).
Proof.
  intros Hd. apply F64Facts.znan_div, F64Facts.znan_abs, F64Facts.znan_mul_r, Hd.
Qed.

Lemma cell_errors_skip atol rtol h res res' wc :
  Forall2 (λ d d', d = d' ∨ (F64.znan d ∧ F64.znan d')) (cell res) (cell res') →
  Forall2 (λ e e', e = e' ∨ (F64.znan e ∧ F64.znan e'))
    (cell_errors atol rtol h res wc) (cell_errors atol rtol h res' wc).
Proof.
  unfold cell_errors. intros Hf. generalize (cell wc).
  induction Hf as [|d d' ds ds' Hd _ IH]; intros [|w ws']; cbn; try constructor.
  - destruct Hd as [->|[Hd Hd']]; [now left|right].
    split; now apply cell_error_znan.
  - apply IH.
Qed.

Lemma cell_error_abs atol rtol h d d' w :
  abs d = abs d' → cell_error atol rtol h d w = cell_error atol rtol h d' w.
Proof. intros E. unfold cell_error. now rewrite (F64Edge.abs_mul_abs h d d'). Qed.

Lemma enorm_kernel_settled pk :
  atol_ (enorm_kernel (enorm_kernel pk)) = atol_ (enorm_kernel pk) ∧
  rtol_ (enorm_kernel (enorm_kernel pk)) = rtol_ (enorm_kernel pk).
Proof.
  unfold enorm_kernel, request_water_content, update_tolerances.
  destruct (continuation_to_ss_ pk) eqn:E; cbn; rewrite E; done.
Qed.

(** X1.  What a call of [enorm] comes to.  It asks the evaluator for the water
    content of the new state and then reads the field: the call fails when
    the fields the evaluator returns hold no water content; it reads the
    water content at every cell index of du, past its end when it has fewer
    cells than du; in every other case it returns a norm. *)
Theorem enorm_outcome (u du : TreeVector) (peers : list double) (pk : Richards) :
  match (HasFieldChanged "water_content" (S_next_ pk) (name_ pk)).2
          !! "water_content" with
  | None => enorm u du peers pk = Fail (NoSuchField "water_content")
  | Some wc =>
      if decide (length (cell (data du)) ≤ length (cell wc))
      then ∃ r pk', enorm u du peers pk = Ok (r, pk')
      else enorm u du peers pk = Fail OutOfRange
  end.
Proof.
  destruct (_ !! _) as [wc|] eqn:E; [|now apply enorm_missing].
  destruct (decide _) as [Hl|Hl].
  - eexists _, _. now apply (enorm_present _ _ _ _ wc).
  - apply (enorm_short _ _ _ _ wc); [done|lia].
Qed.

(** X2.  A NaN in the correction does not reach the norm: [std::max] keeps its
    first argument when the comparison with a NaN fails.  Calls whose
    corrections differ only in cells where one has a NaN and the other a
    zero come out the same, failures included; and a correction that is NaN
    in every cell has norm 0 on its rank. *)
Theorem enorm_skips_nan (u u' du du' : TreeVector) (peers : list double)
    (pk : Richards) (wc : CompositeVector) :
  (Forall2 (λ d d', d = d' ∨ ((d =? d) = false ∧ (d' =? 0) = true))
     (cell (data du)) (cell (data du')) →
   enorm u du peers pk = enorm u' du' peers pk) ∧
  (Forall (λ d, (d =? d) = false) (cell (data du)) →
   (HasFieldChanged "water_content" (S_next_ pk) (name_ pk)).2
     !! "water_content" = Some wc →
   length (cell (data du)) ≤ length (cell wc) →
   ∃ pk', enorm u du [] pk = Ok (0, pk') ∧
          enorm u du peers pk = Ok (foldl std_max 0 peers, pk')).
Proof.
  split.
  - intros Hf. apply enorm_congr; [eapply Forall2_length, Hf|].
    intros a r h wc'. apply foldl_std_max_skip; [|reflexivity].
    apply cell_errors_skip. eapply Forall2_impl; [exact Hf|].
    intros d d' [->|[Hd Hd']]; [now left|right].
    split; apply F64Facts.znan_spec; auto.
  - intros Hf Hwc Hlen. exists (enorm_kernel pk).
    rewrite !(enorm_present _ _ _ _ wc) by done.
    rewrite (foldl_std_max_znan _ 0 eq_refl); [done|].
    apply Forall_forall. intros e He.
    apply list_elem_of_lookup in He as [c Hc].
    apply cell_errors_lookup in Hc as (d & w & Hd & _ & ->).
    apply cell_error_znan, F64Facts.znan_spec. right.
    eapply Forall_lookup_1 in Hf; [exact Hf|exact Hd].
Qed.

(** X3.  The norm sees the correction through the absolute values of its cells
    only: two corrections whose cells agree in absolute value, whatever
    their signs, get the same answer. *)
Theorem enorm_sign_blind (u u' du du' : TreeVector) (peers : list double)
    (pk : Richards) :
  Forall2 (λ d d', abs d = abs d') (cell (data du)) (cell (data du')) →
  enorm u du peers pk = enorm u' du' peers pk.
Proof.
  intros Hf. apply enorm_congr; [eapply Forall2_length, Hf|].
  intros a r h wc. f_equal. unfold cell_errors. generalize (cell wc).
  induction Hf as [|d d' ds ds' Hd _ IH]; intros [|w ws']; cbn [zip_with]; try done.
  now rewrite (cell_error_abs a r h d d' w Hd), IH.
Qed.

(** X4.  The relaxation of the tolerances does not compound: [enorm] computes
    them from the nominal values, which it never writes, so a second call
    leaves the tolerances where the first has put them; and a kernel that
    does not continue to steady state keeps its tolerances. *)
Theorem enorm_tolerances_settle (u du u' du' : TreeVector)
    (peers peers' : list double) (pk pk1 pk2 : Richards) (r r' : double) :
  enorm u du peers pk = Ok (r, pk1) →
  enorm u' du' peers' pk1 = Ok (r', pk2) →
  atol_ pk2 = atol_ pk1 ∧ rtol_ pk2 = rtol_ pk1 ∧
  atol0_ pk2 = atol0_ pk ∧ rtol0_ pk2 = rtol0_ pk ∧
  (continuation_to_ss_ pk = false → atol_ pk1 = atol_ pk ∧ rtol_ pk1 = rtol_ pk).
Proof.
  intros E1 E2. apply enorm_Ok_kernel in E1 as ->. apply enorm_Ok_kernel in E2 as ->.
  destruct (enorm_kernel_settled pk) as [-> ->].
  repeat split;
    unfold enorm_kernel, request_water_content, update_tolerances;
    try (intros ->; done); destruct (continuation_to_ss_ pk) eqn:E; cbn; rewrite ?E; done.
Qed.

End EnormOutcomes.

Section EnormOutcomeWitnesses.
Import Idle.

Lemma enorm_skips_nan_witness :
  enorm Scenario.u_norm {| data := vec [nan] |} [] Scenario.pk_norm =
    enorm Scenario.u_norm {| data := vec [0] |} [] Scenario.pk_norm ∧
  norm_of (enorm Scenario.u_norm {| data := vec [nan] |} [] Scenario.pk_norm) =
    Some 0.
Proof.
  destruct (enorm_skips_nan Scenario.u_norm Scenario.u_norm
              {| data := vec [nan] |} {| data := vec [0] |} []
              Scenario.pk_norm (vec [10.0])) as [H1 H2].
  split.
  - apply H1. constructor; [right; split; reflexivity | constructor].
  - destruct H2 as (pk' & E & _);
      [repeat constructor | reflexivity | simpl; lia |].
    now rewrite E.
Defined.

Lemma enorm_sign_blind_witness :
  enorm Scenario.u_norm {| data := vec [-1e-3] |} [] Scenario.pk_norm =
  enorm Scenario.u_norm Scenario.du_norm [] Scenario.pk_norm.
Proof.
  apply (enorm_sign_blind Scenario.u_norm Scenario.u_norm
           {| data := vec [-1e-3] |} Scenario.du_norm [] Scenario.pk_norm).
  repeat constructor.
Defined.

Lemma enorm_tolerances_settle_witness :
  tolerances_after
    (enorm Scenario.u_norm Scenario.du_norm [] Scenario.pk_continuation
     ≫= λ '(_, pk1), enorm Scenario.u_norm Scenario.du_norm [] pk1) =
  tolerances_after
    (enorm Scenario.u_norm Scenario.du_norm [] Scenario.pk_continuation).
Proof.
  destruct (enorm Scenario.u_norm Scenario.du_norm [] Scenario.pk_continuation)
    as [[r pk1]|] eqn:E1; [|vm_compute in E1; discriminate E1].
  cbn [mbind Result_bind].
  destruct (enorm Scenario.u_norm Scenario.du_norm [] pk1)
    as [[r' pk2]|] eqn:E2.
  - destruct (enorm_tolerances_settle _ _ _ _ _ _ _ _ _ _ _ E1 E2)
      as (Ha & Hr & _).
    cbn [tolerances_after]. now rewrite Ha, Hr.
  - exfalso.
    apply (f_equal (λ x, match x with Ok (_, k) => k | Fail _ => pk1 end)) in E1.
    rewrite <- E1 in E2. vm_compute in E2. discriminate E2.
Defined.

End EnormOutcomeWitnesses.

(** * Further properties of the preconditioner update *)

Section UpdatePreconOutcomes.
Context `{ExternalTypes} `{!Collaborators}.

Lemma update_precon_Ok t up h pk pk1 dwc_dp pres pkA :
  update_precon_assemble t up pk = Ok (pk1, dwc_dp, pres) →
  update_precon t up h pk = Ok pkA →
  ∃ P, update_cell_block h dwc_dp pres (preconditioner_ pk1) = Ok P ∧
       pkA = update_precon_finish (with_preconditioner P pk1).
Proof.
  intros Hasm E. unfold update_precon in E. rewrite Hasm in E.
  cbn [mbind Result_bind] in E.
  destruct (update_cell_block _ _ _ _) as [P|]; cbn [mbind Result_bind] in E;
    [|discriminate E].
  injection E as <-. eauto.
Qed.


(** X6.  The cell loop runs over the cells of the derivative and indexes the
    operator's cell diagonal, its cell right-hand side and the pressure with
    each: once the assembly steps have gone through, [update_precon]
    completes exactly when all three have at least as many cells, and reads
    past the end of one otherwise. *)
Theorem update_precon_bounds (t : double) (up : TreeVector) (h : double)
    (pk pk1 : Richards) (dwc_dp pres : CompositeVector) :
  update_precon_assemble t up pk = Ok (pk1, dwc_dp, pres) →
  if decide (length (cell dwc_dp) ≤ length (Acc_cells (preconditioner_ pk1)) ∧
             length (cell dwc_dp) ≤ length (Fc_cells (preconditioner_ pk1)) ∧
             length (cell dwc_dp) ≤ length (cell pres))
  then ∃ pk', update_precon t up h pk = Ok pk'
  else update_precon t up h pk = Fail OutOfRange.
Proof.
  intros Hasm. unfold update_precon. rewrite Hasm. cbn [mbind Result_bind].
  unfold update_cell_block.
  destruct (decide _) as [(La & Lf & Lp)|Hn].
  - destruct (accumulate_loop h dwc_dp pres (Acc_cells (preconditioner_ pk1))
                (Fc_cells (preconditioner_ pk1)) (length (cell dwc_dp)))
      as (Acc' & Fc' & E & _); [lia..|].
    rewrite E. cbn [mbind Result_bind]. eauto.
  - now rewrite accumulate_loop_short.
Qed.

(** X7.  The cell loop of [update_precon] writes the cells of the derivative and
    nothing else: the operator it hands to the boundary conditions has its
    two vectors as long as they were, their entries past the cells of the
    derivative as the assembly left them, and its other blocks untouched. *)
Theorem update_precon_frame (t : double) (up : TreeVector) (h : double)
    (pk pk1 pkA : Richards) (dwc_dp pres : CompositeVector) :
  update_precon_assemble t up pk = Ok (pk1, dwc_dp, pres) →
  update_precon t up h pk = Ok pkA →
  ∃ P : MatrixMFD,
    pkA = update_precon_finish (with_preconditioner P pk1) ∧
    length (Acc_cells P) = length (Acc_cells (preconditioner_ pk1)) ∧
    length (Fc_cells P) = length (Fc_cells (preconditioner_ pk1)) ∧
    blocks P = blocks (preconditioner_ pk1) ∧
    (∀ c, length (cell dwc_dp) ≤ c →
       Acc_cells P !! c = Acc_cells (preconditioner_ pk1) !! c ∧
       Fc_cells P !! c = Fc_cells (preconditioner_ pk1) !! c).
Proof.
  intros Hasm E. destruct (update_precon_Ok _ _ _ _ _ _ _ _ Hasm E) as (P & EP & ->).
  destruct (update_cell_block_cells _ _ _ _ _ EP) as (? & ? & ? & _ & ?).
  exists P. done.
Qed.

(** X8.  The step is not checked: with h a zero, [update_precon] goes through all
    the same, and every cell of the derivative gets a cell diagonal and a
    cell right-hand side that are infinite or NaN. *)
Theorem update_precon_zero_step (t : double) (up : TreeVector) (h : double)
    (pk pk1 pkA : Richards) (dwc_dp pres : CompositeVector) :
  update_precon_assemble t up pk = Ok (pk1, dwc_dp, pres) →
  update_precon t up h pk = Ok pkA →
  (h =? 0) = true →
  ∃ P : MatrixMFD,
    pkA = update_precon_finish (with_preconditioner P pk1) ∧
    ∀ c, c < length (cell dwc_dp) →
      ∃ a f, Acc_cells P !! c = Some a ∧ Fc_cells P !! c = Some f ∧
             (abs a <? infinity) = false ∧ (abs f <? infinity) = false.
Proof.
  intros Hasm E Hh. destruct (update_precon_Ok _ _ _ _ _ _ _ _ Hasm E) as (P & EP & ->).
  exists P. split; [done|]. intros c Hc.
  destruct (update_cell_block_cells _ _ _ _ _ EP) as (_ & _ & _ & Hlow & _).
  destruct (Hlow c Hc) as (d & a & p & f & _ & _ & _ & _ & -> & ->).
  eexists _, _. split; [done|]. split; [done|].
  split; apply not_true_is_false;
    apply F64Edge.not_finite_add_r, F64Edge.not_finite_div_zero, Hh.
Qed.

(** X9.  The loop adds; it does not care what the diagonal holds.  When the
    second of two calls in succession finds the cell diagonal and the cell
    right-hand side as the cell loop of the first call has left them, each
    cell ends with the contribution added twice. *)
Theorem update_precon_adds_again (t : double) (up : TreeVector) (h : double)
    (pk pk1 pkA pk1' : Richards) (dwc_dp pres : CompositeVector)
    (PA : MatrixMFD) :
  update_precon_assemble t up pk = Ok (pk1, dwc_dp, pres) →
  update_cell_block h dwc_dp pres (preconditioner_ pk1) = Ok PA →
  update_precon t up h pk = Ok pkA →
  update_precon_assemble t up pkA = Ok (pk1', dwc_dp, pres) →
  Acc_cells (preconditioner_ pk1') = Acc_cells PA →
  Fc_cells (preconditioner_ pk1') = Fc_cells PA →
  ∃ PB : MatrixMFD,
    update_precon t up h pkA =
      Ok (update_precon_finish (with_preconditioner PB pk1')) ∧
    ∀ c d, cell dwc_dp !! c = Some d →
      ∃ a f p,
        Acc_cells (preconditioner_ pk1) !! c = Some a ∧
        Fc_cells (preconditioner_ pk1) !! c = Some f ∧
        cell pres !! c = Some p ∧
        Acc_cells PA !! c = Some (a + d / h) ∧
        Fc_cells PA !! c = Some (f + p * d / h) ∧
        Acc_cells PB !! c = Some (a + d / h + d / h) ∧
        Fc_cells PB !! c = Some (f + p * d / h + p * d / h).
Proof.
  intros Hasm1 EA E1 Hasm2 HAcc HFc.
  destruct (update_cell_block_cells _ _ _ _ _ EA) as (La & Lf & _ & HlowA & _).
  destruct (update_cell_block_Ok _ _ _ _ _ EA) as (L1 & L2 & L3).
  destruct (accumulate_loop h dwc_dp pres (Acc_cells (preconditioner_ pk1'))
              (Fc_cells (preconditioner_ pk1')) (length (cell dwc_dp)))
    as (Acc' & Fc' & EL & _ & _ & HlowB & _);
    [lia | rewrite HAcc; lia | rewrite HFc; lia | lia |].
  exists (with_cells Acc' Fc' (preconditioner_ pk1')). split.
  - unfold update_precon. rewrite Hasm2. cbn [mbind Result_bind].
    unfold update_cell_block. now rewrite EL.
  - intros c d Hd. assert (Hc : c < length (cell dwc_dp)) by now apply lookup_lt_Some in Hd.
    destruct (HlowA c Hc) as (d1 & a & p & f & Hd1 & Ha & Hp & Hf & Ha' & Hf').
    destruct (HlowB c Hc) as (d2 & a2 & p2 & f2 & Hd2 & Ha2 & Hp2 & Hf2 & Ha2' & Hf2').
    rewrite HAcc, Ha' in Ha2. rewrite HFc, Hf' in Hf2.
    exists a, f, p. cbn [with_cells Acc_cells Fc_cells].
    replace d with d1 by congruence.
    replace d2 with d1 in * by congruence. replace p2 with p in * by congruence.
    injection Ha2 as <-. injection Hf2 as <-. done.
Qed.

End UpdatePreconOutcomes.

Section UpdatePreconOutcomeWitnesses.
Import Idle.

Lemma update_precon_bounds_witness :
  update_precon 1 Scenario.up_demo 1
    (with_preconditioner
       (with_cells [] [0] (preconditioner_ (kernel 0 1 10.0 1e-5 1e-4 false)))
       (kernel 0 1 10.0 1e-5 1e-4 false)) = Fail OutOfRange.
Proof.
  set (pk0 := with_preconditioner
                (with_cells [] [0] (preconditioner_ (kernel 0 1 10.0 1e-5 1e-4 false)))
                (kernel 0 1 10.0 1e-5 1e-4 false)).
  pose proof (update_precon_bounds 1 Scenario.up_demo 1 pk0 pk0
                (vec [1]) (vec [101325])) as Hb.
  destruct (decide _) as [(Hl & _)|_] in Hb.
  - exfalso. cbn in Hl. lia.
  - apply Hb. vm_compute. reflexivity.
Defined.

Lemma update_precon_frame_witness :
  cells_after
    (update_precon 1 Scenario.up_demo 1
       (with_preconditioner
          (with_cells [0; 7] [0; 8; 9]
             (preconditioner_ (kernel 0 1 10.0 1e-5 1e-4 false)))
          (kernel 0 1 10.0 1e-5 1e-4 false))) =
  Some ([1; 7], [101325; 8; 9]).
Proof.
  set (pk0 := with_preconditioner
                (with_cells [0; 7] [0; 8; 9]
                   (preconditioner_ (kernel 0 1 10.0 1e-5 1e-4 false)))
                (kernel 0 1 10.0 1e-5 1e-4 false)).
  set (pkA := with_preconditioner
                (with_cells [1; 7] [101325; 8; 9]
                   (preconditioner_ (kernel 0 1 10.0 1e-5 1e-4 false)))
                (kernel 0 1 10.0 1e-5 1e-4 false)).
  assert (E : update_precon 1 Scenario.up_demo 1 pk0 = Ok pkA)
    by (vm_compute; reflexivity).
  destruct (update_precon_frame 1 Scenario.up_demo 1 pk0 pk0 pkA
              (vec [1]) (vec [101325])) as (P & _);
    [vm_compute; reflexivity | exact E |].
  now rewrite E.
Defined.

Lemma update_precon_zero_step_witness :
  cells_after
    (update_precon 1 Scenario.up_demo 0 (kernel 0 1 10.0 1e-5 1e-4 false)) =
  Some ([infinity], [infinity]).
Proof.
  set (pk0 := kernel 0 1 10.0 1e-5 1e-4 false).
  set (pkA := with_preconditioner
                (with_cells [infinity] [infinity] (preconditioner_ pk0)) pk0).
  assert (E : update_precon 1 Scenario.up_demo 0 pk0 = Ok pkA)
    by (vm_compute; reflexivity).
  destruct (update_precon_zero_step 1 Scenario.up_demo 0 pk0 pk0 pkA
              (vec [1]) (vec [101325])) as (P & _);
    [vm_compute; reflexivity | exact E | reflexivity |].
  now rewrite E.
Defined.

Lemma update_precon_adds_again_witness :
  cells_after (update_precon 1 Scenario.up_demo 1 (kernel 0 1 10.0 1e-5 1e-4 false)) =
    Some ([1], [101325]) ∧
  cells_after (update_precon 1 Scenario.up_demo 1 (kernel 0 1 10.0 1e-5 1e-4 false)
               ≫= update_precon 1 Scenario.up_demo 1) =
    Some ([2], [202650]).
Proof.
  set (pk0 := kernel 0 1 10.0 1e-5 1e-4 false).
  set (PA := with_cells [1] [101325] (preconditioner_ pk0)).
  set (pkA := with_preconditioner PA pk0).
  assert (E1 : update_precon 1 Scenario.up_demo 1 pk0 = Ok pkA)
    by (vm_compute; reflexivity).
  destruct (update_precon_adds_again 1 Scenario.up_demo 1 pk0 pk0 pkA pkA
              (vec [1]) (vec [101325]) PA) as (PB & E2 & Hc);
    [vm_compute; reflexivity | vm_compute; reflexivity | exact E1
    | vm_compute; reflexivity | reflexivity | reflexivity |].
  rewrite E1. split; [reflexivity|]. cbn [mbind Result_bind].
  vm_compute. reflexivity.
Defined.

End UpdatePreconOutcomeWitnesses.

(** * The parameters of the constant equation of state *)

Section EOSConstantParameters.
Import EOSConstant.

Ltac plist :=
  repeat first [rewrite lookup_insert_eq
               | rewrite lookup_insert_ne by (discriminate || congruence)].

(** X10.  Without an entry for the molar mass the EOS takes that of water,
    18.0153 g/mol, and without an entry for the density 1000 kg/m^3,
    whatever else the list holds; with neither, [Density] is the molar
    density of water, the double 1000/(18.0153*1e-3), about 55508.37
    mol/m^3. *)
Theorem InitializeFromPlist_defaults (pl : gmap string double) (T p : double) :
  (pl !! "Molar mass [kg/mol]" = None → pl !! "Molar mass [g/mol]" = None →
   molar_mass (InitializeFromPlist_ pl) = 18.0153 * 1e-3) ∧
  (pl !! "Density [mol/m^3]" = None → pl !! "Density [kg/m^3]" = None →
   rho_ (InitializeFromPlist_ pl) = 1000.0) ∧
  (pl !! "Molar mass [kg/mol]" = None → pl !! "Molar mass [g/mol]" = None →
   pl !! "Density [mol/m^3]" = None → pl !! "Density [kg/m^3]" = None →
   Density (InitializeFromPlist_ pl) T p = 1000.0 / (18.0153 * 1e-3) ∧
   (55508.3 <? Density (InitializeFromPlist_ pl) T p) = true ∧
   (Density (InitializeFromPlist_ pl) T p <? 55508.4) = true).
Proof.
  unfold Density, molar_mass, InitializeFromPlist_. cbn [M_ rho_].
  split; [|split].
  - now intros -> ->.
  - now intros -> ->.
  - intros -> -> -> ->. cbn [default]. repeat split; vm_compute; reflexivity.
Qed.

(** X11.  An entry that another one shadows has no effect: the molar mass in
    g/mol when there is one in kg/mol, the density in kg/m^3 when there is
    one in mol/m^3; nor has an entry under any other name. *)
Theorem InitializeFromPlist_shadowed (pl : gmap string double)
    (k : string) (m n v : double) :
  (pl !! "Molar mass [kg/mol]" = Some m →
   InitializeFromPlist_ (<["Molar mass [g/mol]" := v]> pl) = InitializeFromPlist_ pl) ∧
  (pl !! "Density [mol/m^3]" = Some n →
   InitializeFromPlist_ (<["Density [kg/m^3]" := v]> pl) = InitializeFromPlist_ pl) ∧
  (k ∉ ["Molar mass [kg/mol]"; "Molar mass [g/mol]";
        "Density [mol/m^3]"; "Density [kg/m^3]"] →
   InitializeFromPlist_ (<[k := v]> pl) = InitializeFromPlist_ pl).
Proof.
  unfold InitializeFromPlist_. split; [|split].
  - intros E. plist. now rewrite E.
  - intros E. plist. now rewrite E.
  - intros Hk. repeat (apply not_elem_of_cons in Hk as [? Hk]). now plist.
Qed.

(** X12.  The two units of each parameter agree: a molar mass of g in g/mol is
    the molar mass g*1e-3 in kg/mol, and a density of n in mol/m^3 is the
    density n*M in kg/m^3, M the molar mass the list gives. *)
Theorem InitializeFromPlist_units (pl : gmap string double) (g n : double) :
  (pl !! "Molar mass [kg/mol]" = None →
   InitializeFromPlist_ (<["Molar mass [g/mol]" := g]> pl) =
   InitializeFromPlist_ (<["Molar mass [kg/mol]" := g * 1e-3]> pl)) ∧
  (pl !! "Density [mol/m^3]" = None →
   InitializeFromPlist_ (<["Density [mol/m^3]" := n]> pl) =
   InitializeFromPlist_
     (<["Density [kg/m^3]" := n * molar_mass (InitializeFromPlist_ pl)]> pl)).
Proof.
  unfold molar_mass, InitializeFromPlist_. cbn [M_]. split; intros E.
  - plist. now rewrite E.
  - plist. now rewrite E.
Qed.

(** X13.  The molar mass is not validated: with a molar mass of zero [Density]
    divides by zero and is infinite or NaN for every (T, p), and NaN when the
    density was given per mole. *)
Theorem Density_zero_molar_mass (pl : gmap string double) (T p : double) :
  (molar_mass (InitializeFromPlist_ pl) =? 0) = true →
  (abs (Density (InitializeFromPlist_ pl) T p) <? infinity) = false ∧
  (is_Some (pl !! "Density [mol/m^3]") →
   (Density (InitializeFromPlist_ pl) T p =? Density (InitializeFromPlist_ pl) T p)
     = false).
Proof.
  intros HM. split.
  { apply not_true_is_false. now apply F64Edge.not_finite_div_zero. }
  intros [n En]. apply F64Edge.nan_div_zero_zero; [|done].
  revert HM. unfold molar_mass, InitializeFromPlist_. cbn [M_ rho_]. rewrite En.
  intros HM. apply F64Facts.znan_mul_r, F64Facts.znan_spec. now left.
Qed.

(** X14.  A density given per mole is stored per kilogram and divided back by the
    molar mass: [Density] returns n*M/M, which need not be n; with the molar
    mass of water, 1000 mol/m^3 comes back as the next double below 1000. *)
Theorem Density_of_molar_density (pl : gmap string double) (n T p : double) :
  pl !! "Density [mol/m^3]" = Some n →
  Density (InitializeFromPlist_ pl) T p =
    n * molar_mass (InitializeFromPlist_ pl) / molar_mass (InitializeFromPlist_ pl) ∧
  (pl !! "Molar mass [kg/mol]" = None → pl !! "Molar mass [g/mol]" = None →
   n = 1000 →
   Density (InitializeFromPlist_ pl) T p = 999.99999999999989 ∧
   (Density (InitializeFromPlist_ pl) T p <? n) = true).
Proof.
  intros En. unfold Density, molar_mass, InitializeFromPlist_. cbn [M_ rho_].
  rewrite En. split; [done|]. intros -> -> ->. split; vm_compute; reflexivity.
Qed.

End EOSConstantParameters.

Section EOSConstantParameterWitnesses.
Import EOSConstant.

Lemma InitializeFromPlist_defaults_witness :
  Density (InitializeFromPlist_ {["Viscosity [kg/m-s]" := 8.9e-4]}) 293.15 101325 =
  1000.0 / (18.0153 * 1e-3).
Proof.
  destruct (InitializeFromPlist_defaults {["Viscosity [kg/m-s]" := 8.9e-4]}
              293.15 101325) as (_ & _ & Hd).
  destruct Hd as (E & _); reflexivity || exact E.
Defined.

Lemma InitializeFromPlist_shadowed_witness :
  InitializeFromPlist_
    (<["Molar mass [g/mol]" := 44.01]> {["Molar mass [kg/mol]" := 0.028]}) =
  InitializeFromPlist_ {["Molar mass [kg/mol]" := 0.028]}.
Proof.
  destruct (InitializeFromPlist_shadowed {["Molar mass [kg/mol]" := 0.028]}
              "" 0.028 0 44.01) as (H1 & _).
  apply H1. reflexivity.
Defined.

Lemma InitializeFromPlist_units_witness :
  InitializeFromPlist_ {["Molar mass [g/mol]" := 28.0]} =
  InitializeFromPlist_ {["Molar mass [kg/mol]" := 28.0 * 1e-3]}.
Proof.
  destruct (InitializeFromPlist_units ∅ 28.0 0) as (H1 & _).
  apply H1. reflexivity.
Defined.

Lemma Density_zero_molar_mass_witness :
  Density (InitializeFromPlist_ {["Molar mass [kg/mol]" := 0]}) 293.15 101325 =
    infinity ∧
  Density (InitializeFromPlist_
             (<["Density [mol/m^3]" := 55000]> {["Molar mass [kg/mol]" := 0]}))
    293.15 101325 = nan.
Proof.
  destruct (Density_zero_molar_mass {["Molar mass [kg/mol]" := 0]} 293.15 101325)
    as [_ _]; [reflexivity|].
  split; reflexivity.
Defined.

Lemma Density_of_molar_density_witness :
  Density (InitializeFromPlist_ {["Density [mol/m^3]" := 1000]}) 293.15 101325 =
  999.99999999999989.
Proof.
  destruct (Density_of_molar_density {["Density [mol/m^3]" := 1000]}
              1000 293.15 101325) as [_ H]; [reflexivity|].
  apply H; reflexivity.
Defined.

End EOSConstantParameterWitnesses.
